(** * cmndr: a command tree and its argument dispatch

    A shallow embedding of [cmd.go] (package [cmndr]) together with the part
    of Go's standard [flag] package that [cmd.go] calls, and the properties
    of dispatch, help rendering and child registration proved about it.

    - Go pointers ([*Cmd], [*flag.FlagSet]) are indices into two stores that
      only grow; nodes and flag sets are shared through them as in the
      source (the help closure holds its parent, a usage closure its node).
    - The process is a state monad over those stores and the standard error
      stream, with [os.Exit] and [panic] as the two ways out.
    - [flag.FlagSet] follows the standard library: [Parse] loops over
      [parseOne], reports through [failf] and the [Usage] hook, and then
      acts on the set's [ErrorHandling]. Flag sets write to [os.Stderr],
      their default output.
    - The callers' [RunFunc]s are a table of functions that observe the
      tree and the arguments and return an error or nil.
    - What [tabwriter], [PrintDefaults] and [strconv.Quote] do to text is
      not spelled out: the stream records the lines handed to the
      tabwriter and the flags whose defaults are printed, and the quoting
      function is a parameter. *)

From Stdlib Require Import String Ascii List ZArith Lia.
From stdpp Require Import base option list gmap strings sorting.

Open Scope string_scope.
Open Scope list_scope.
Open Scope nat_scope.

(** ** Strings and slices *)

Definition TAB : string := String "009"%char "".
Definition NL : string := String "010"%char "".

(** A pointer is an index into a store. An index past the end of the store
    plays the part of an invalid (nil) pointer: dereferencing it panics. *)
Abbreviation ptr := nat (only parsing).

(** A Go [[]string]: the nil slice and the empty, non-nil slice both have
    length zero, yet are told apart by [s == nil]. *)
Inductive slice :=
| nil_slice
| mk_slice (elts : list string).

Definition elems (s : slice) : list string :=
  match s with
  | nil_slice => []
  | mk_slice l => l
  end.

Definition len (s : slice) : nat := length (elems s).

(** [s[1:]]; out of range when [len s = 0]. *)
Definition slice_from1 (s : slice) : option slice :=
  match s with
  | mk_slice (_ :: l) => Some (mk_slice l)
  | _ => None
  end.

(** ** Errors *)

(** [flag.ErrHelp] is a sentinel compared by identity; every other error the
    program meets is an opaque value with a message. *)
Inductive error :=
| ErrHelp
| errorString (msg : string).

Definition Error (e : error) : string :=
  match e with
  | ErrHelp => "flag: help requested"
  | errorString m => m
  end.

(** ** Package flag: data *)

Inductive ErrorHandling := ContinueOnError | ExitOnError | PanicOnError.

(** A registered flag. [flag_Set] is [Value.Set]: it accepts or rejects the
    text given on the command line. *)
Record Flag := mkFlag {
  flag_Usage : string;
  flag_DefValue : string;
  IsBoolFlag : bool;
  flag_Set : string -> option error
}.

(** The function values a [FlagSet.Usage] field holds in this program:
    the method value [f.defaultUsage] that [flag.NewFlagSet] installs, the
    closure [newUsage(c)] that [New] installs, or a caller's own printer. *)
Inductive UsageFn :=
| defaultUsageOf (f : ptr)
| newUsageOf (c : ptr)
| userUsage (text : string).

Record FlagSet := mkFlagSet {
  Usage : option UsageFn;
  fs_name : string;
  parsed : bool;
  actual : gmap string string;
  formal : gmap string Flag;
  fs_args : slice;
  errorHandling : ErrorHandling
}.

(** ** Package cmndr: data *)

(** A [RunFunc] is either the closure built by [newHelpCmd], which captures
    its parent, or a caller's function, named by an index into a table. *)
Inductive RunFunc :=
| helpRunOf (parent : ptr)
| userRun (id : nat).

Record Cmd := mkCmd {
  Name : string;
  Description : string;
  Flags : option ptr;
  Commands : option (gmap string ptr);
  Run : option RunFunc
}.

(** ** The process state *)

(** What reaches [os.Stderr]: text written directly, the lines handed to the
    [tabwriter] and flushed by it, and the defaults of a flag set as
    [PrintDefaults] renders them. *)
Inductive Write :=
| Text (s : string)
| Table (lines : list string)
| Defaults (flags : gmap string Flag).

Record World := mkWorld {
  cmds : list Cmd;
  flagsets : list FlagSet;
  stderr : list Write
}.

Inductive Result (A : Type) :=
| Return (a : A)
| Exit (code : Z)
| Panic (msg : string).
Arguments Return {A} a.
Arguments Exit {A} code.
Arguments Panic {A} msg.

Definition M (A : Type) : Type := World -> World * Result A.

Definition ret {A} (a : A) : M A := fun w => (w, Return a).

Definition bind {A B} (m : M A) (k : A -> M B) : M B :=
  fun w =>
    match m w with
    | (w', Return a) => k a w'
    | (w', Exit c) => (w', Exit c)
    | (w', Panic s) => (w', Panic s)
    end.

Notation "'let*' x ':=' m 'in' k" := (bind m (fun x => k))
  (at level 10, x pattern, m at level 100, k at level 200).
Notation "m ';;' k" := (bind m (fun _ => k))
  (at level 100, k at level 200, right associativity).

Definition os_Exit {A} (code : Z) : M A := fun w => (w, Exit code).
Definition panic {A} (msg : string) : M A := fun w => (w, Panic msg).

Definition nil_deref : string := "invalid memory address or nil pointer dereference".
Definition out_of_range : string := "slice bounds out of range".

Definition emit (x : Write) : M unit :=
  fun w => (mkWorld (cmds w) (flagsets w) (stderr w ++ [x]), Return tt).

(** [fmt.Fprint(os.Stderr, s)] *)
Definition Fprint (s : string) : M unit := emit (Text s).

Definition derefCmd (c : ptr) : M Cmd :=
  fun w =>
    match cmds w !! c with
    | Some x => (w, Return x)
    | None => (w, Panic nil_deref)
    end.

Definition storeCmd (c : ptr) (x : Cmd) : M unit :=
  fun w => (mkWorld (<[c := x]> (cmds w)) (flagsets w) (stderr w), Return tt).

Definition allocCmd (x : Cmd) : M ptr :=
  fun w => (mkWorld (cmds w ++ [x]) (flagsets w) (stderr w), Return (length (cmds w))).

Definition derefFlagSet (f : ptr) : M FlagSet :=
  fun w =>
    match flagsets w !! f with
    | Some x => (w, Return x)
    | None => (w, Panic nil_deref)
    end.

Definition storeFlagSet (f : ptr) (x : FlagSet) : M unit :=
  fun w => (mkWorld (cmds w) (<[f := x]> (flagsets w)) (stderr w), Return tt).

Definition allocFlagSet (x : FlagSet) : M ptr :=
  fun w => (mkWorld (cmds w) (flagsets w ++ [x]) (stderr w), Return (length (flagsets w))).

(** ** Package flag: operations *)

(** [flag.NewFlagSet(name, errorHandling)]: the new set's [Usage] is its own
    [defaultUsage]. *)
Definition NewFlagSet (name : string) (eh : ErrorHandling) : M ptr :=
  fun w =>
    let f := length (flagsets w) in
    allocFlagSet (mkFlagSet (Some (defaultUsageOf f)) name false ∅ ∅ nil_slice eh) w.

Definition PrintDefaults (f : ptr) : M unit :=
  let* fs := derefFlagSet f in
  emit (Defaults (formal fs)).

Definition defaultUsage (f : ptr) : M unit :=
  let* fs := derefFlagSet f in
  (if decide (fs_name fs = "") then Fprint ("Usage:" +:+ NL)
   else Fprint ("Usage of " +:+ fs_name fs +:+ ":" +:+ NL));;
  PrintDefaults f.

(** [f.Arg(i)], [f.NArg()], [f.Args()] *)
Definition Arg (fs : FlagSet) (i : nat) : string :=
  default "" (elems (fs_args fs) !! i).
Definition NArg (fs : FlagSet) : nat := len (fs_args fs).
Definition Args (fs : FlagSet) : slice := fs_args fs.

(** How [parseOne] reads the token at the head of the arguments. *)
Inductive flagSyntax :=
| Positional
| Terminator
| BadSyntax
| FlagToken (name : string).

Definition checkName (name : string) : flagSyntax :=
  match name with
  | "" => BadSyntax
  | String c _ =>
      if decide (c = "-"%char) then BadSyntax
      else if decide (c = "="%char) then BadSyntax
      else FlagToken name
  end.

Definition readToken (s : string) : flagSyntax :=
  match s with
  | String c0 (String c1 rest) =>
      if decide (c0 = "-"%char) then
        if decide (c1 = "-"%char) then
          match rest with
          | "" => Terminator
          | _ => checkName rest
          end
        else checkName (String c1 rest)
      else Positional
  | _ => Positional
  end.

(** The text before and after the first ['='] of [s], if there is one. *)
Fixpoint cutEq (s : string) : option (string * string) :=
  match s with
  | "" => None
  | String c r =>
      if decide (c = "="%char) then Some ("", r)
      else match cutEq r with
           | Some (a, b) => Some (String c a, b)
           | None => None
           end
  end.

(** [name=value]: the ['='] is looked for from the second character on. *)
Definition splitValue (name : string) : string * option string :=
  match name with
  | "" => ("", None)
  | String c r =>
      match cutEq r with
      | Some (a, v) => (String c a, Some v)
      | None => (name, None)
      end
  end.

Inductive parseEnd :=
| parseDone
| parseHelp
| parseFail (msg : string).

Section Program.

(** [strconv.Quote], behind the [%q] verb. *)
Variable strconv_Quote : string -> string.

(** [os.Args[0]] and [os.Args[1:]]. *)
Variable os_Args0 : string.
Variable os_Args1 : list string.

(** The callers' [RunFunc]s: each observes the tree and its arguments, and
    returns an error or nil. *)
Variable actions : nat -> World -> ptr -> slice -> option error.

(** The loop of [FlagSet.Parse] over [parseOne]: the flags set so far, the
    arguments left in [f.args], and how the loop ended. *)
Fixpoint parseArgs (fm : gmap string Flag) (act : gmap string string)
    (args : list string) {struct args} : gmap string string * list string * parseEnd :=
  match args with
  | [] => (act, [], parseDone)
  | s :: rest =>
      match readToken s with
      | Positional => (act, args, parseDone)
      | Terminator => (act, rest, parseDone)
      | BadSyntax => (act, args, parseFail ("bad flag syntax: " +:+ s))
      | FlagToken tok =>
          let '(name, value) := splitValue tok in
          match fm !! name with
          | None =>
              if decide (name = "help" ∨ name = "h") then (act, rest, parseHelp)
              else (act, rest, parseFail ("flag provided but not defined: -" +:+ name))
          | Some fl =>
              if IsBoolFlag fl then
                match value with
                | Some v =>
                    match flag_Set fl v with
                    | Some err =>
                        (act, rest,
                         parseFail ("invalid boolean value " +:+ strconv_Quote v +:+ " for -"
                                    +:+ name +:+ ": " +:+ Error err))
                    | None => parseArgs fm (<[name := v]> act) rest
                    end
                | None =>
                    match flag_Set fl "true" with
                    | Some err =>
                        (act, rest,
                         parseFail ("invalid boolean flag " +:+ name +:+ ": " +:+ Error err))
                    | None => parseArgs fm (<[name := "true"]> act) rest
                    end
                end
              else
                match value with
                | Some v =>
                    match flag_Set fl v with
                    | Some err =>
                        (act, rest,
                         parseFail ("invalid value " +:+ strconv_Quote v +:+ " for flag -"
                                    +:+ name +:+ ": " +:+ Error err))
                    | None => parseArgs fm (<[name := v]> act) rest
                    end
                | None =>
                    match rest with
                    | [] => (act, [], parseFail ("flag needs an argument: -" +:+ name))
                    | v :: rest' =>
                        match flag_Set fl v with
                        | Some err =>
                            (act, rest',
                             parseFail ("invalid value " +:+ strconv_Quote v +:+ " for flag -"
                                        +:+ name +:+ ": " +:+ Error err))
                        | None => parseArgs fm (<[name := v]> act) rest'
                        end
                    end
                end
          end
      end
  end.

(** [f.args] after the loop: a nil argument slice stays nil, any other is
    re-sliced and so is not nil. *)
Definition restSlice (arguments : slice) (rest : list string) : slice :=
  match arguments with
  | nil_slice => nil_slice
  | mk_slice _ => mk_slice rest
  end.

Section Hooks.

(** Calling a function value stored in a [Usage] field. *)
Variable call : UsageFn -> M unit.

(** [f.usage()]: the hook if there is one, else the default. *)
Definition usage (f : ptr) : M unit :=
  let* fs := derefFlagSet f in
  match Usage fs with
  | None => defaultUsage f
  | Some u => call u
  end.

(** [f.Usage()], the field called directly: a nil function value panics. *)
Definition Usage_call (f : ptr) : M unit :=
  let* fs := derefFlagSet f in
  match Usage fs with
  | None => panic nil_deref
  | Some u => call u
  end.

(** [f.failf]: print the message, print the usage, return the error. *)
Definition failf (f : ptr) (msg : string) : M error :=
  Fprint (msg +:+ NL);;
  usage f;;
  ret (errorString msg).

(** [f.Parse(arguments)] *)
Definition Parse (f : ptr) (arguments : slice) : M (option error) :=
  let* fs := derefFlagSet f in
  let '(act, rest, e) := parseArgs (formal fs) (actual fs) (elems arguments) in
  storeFlagSet f (mkFlagSet (Usage fs) (fs_name fs) true act (formal fs)
                            (restSlice arguments rest) (errorHandling fs));;
  let* err := match e with
              | parseDone => ret None
              | parseHelp => usage f;; ret (Some ErrHelp)
              | parseFail msg => let* e := failf f msg in ret (Some e)
              end in
  match err with
  | None => ret None
  | Some e =>
      match errorHandling fs with
      | ContinueOnError => ret (Some e)
      | ExitOnError =>
          match e with
          | ErrHelp => os_Exit 0%Z
          | _ => os_Exit 2%Z
          end
      | PanicOnError => panic (Error e)
      end
  end.

End Hooks.

(** ** Package cmndr: operations *)

(** [sort.Strings] *)
Definition sort_Strings (l : list string) : list string := merge_sort String.le l.

(** The names of a map, gathered by ranging over it and then sorted. *)
Definition subNames (m : gmap string ptr) : list string :=
  sort_Strings (map_to_list m).*1.

Definition row (name descr : string) : string :=
  TAB +:+ TAB +:+ name +:+ TAB +:+ descr +:+ NL.

(** The loop that writes one line per name into the tabwriter. A child
    pointer that cannot be dereferenced stops it; the lines written until
    then are still flushed by the deferred [tw.Flush()]. *)
Fixpoint writeRows (cs : list Cmd) (m : gmap string ptr) (names : list string)
  : list string * bool :=
  match names with
  | [] => ([], true)
  | name :: names' =>
      match m !! name ≫= (fun p => cs !! p) with
      | None => ([], false)
      | Some sub =>
          let '(lines, ok) := writeRows cs m names' in
          (row name (Description sub) :: lines, ok)
      end
  end.

Definition printSubcommands (c : ptr) : M unit :=
  let* cmd := derefCmd c in
  match Commands cmd with
  | None => ret tt
  | Some m =>
      Fprint (NL +:+ "Commands" +:+ NL);;
      fun w =>
        let '(lines, ok) := writeRows (cmds w) m (subNames m) in
        (emit (Table lines);;
         if ok then ret tt else panic nil_deref) w
  end.

(** The closure returned by [newUsage(c)]. *)
Definition newUsage (c : ptr) : M unit :=
  let* cmd := derefCmd c in
  let* f := match Flags cmd with
            | Some f => ret f
            | None =>
                let* f := NewFlagSet (Name cmd) ExitOnError in
                storeCmd c (mkCmd (Name cmd) (Description cmd) (Some f)
                                  (Commands cmd) (Run cmd));;
                ret f
            end in
  Fprint (Name cmd +:+ " - " +:+ Description cmd +:+ NL);;
  printSubcommands c;;
  Fprint (NL +:+ "Flags" +:+ NL);;
  PrintDefaults f.

Definition callUsage (u : UsageFn) : M unit :=
  match u with
  | defaultUsageOf f => defaultUsage f
  | newUsageOf c => newUsage c
  | userUsage text => Fprint text
  end.

(** The [Run] closure of the command built by [newHelpCmd(parent)]. *)
Definition helpRun (parent : ptr) (cmd : ptr) (args : slice) : M (option error) :=
  let* pp := match elems args with
             | [] => ret (Some parent)
             | a0 :: _ =>
                 let* p := derefCmd parent in
                 match Commands p with
                 | None => ret (Some parent)
                 | Some m => ret (m !! a0)
                 end
             end in
  match pp with
  | None =>
      ret (Some (errorString ("no such command: " +:+ strconv_Quote (default "" (head (elems args))))))
  | Some pp =>
      let* c := derefCmd pp in
      match Flags c with
      | None =>
          Fprint (Name c +:+ " - " +:+ Description c +:+ NL);;
          printSubcommands pp
      | Some f => Usage_call callUsage f
      end;;
      ret None
  end.

(** [newHelpCmd(parent)] *)
Definition newHelpCmd (parent : ptr) : M ptr :=
  let* p := derefCmd parent in
  allocCmd (mkCmd "help"
                  ("Print the help message for " +:+ Name p +:+ " or a subcommand")
                  None None (Some (helpRunOf parent))).

(** [c.AddCmd(cmd)]: the map is made before the name is looked at. *)
Definition AddCmd (c cmd : ptr) : M unit :=
  let* x := derefCmd c in
  let* m := match Commands x with
            | Some m => ret m
            | None =>
                storeCmd c (mkCmd (Name x) (Description x) (Flags x) (Some ∅) (Run x));;
                ret ∅
            end in
  let* y := derefCmd cmd in
  if decide (Name y = "") then panic "cannot add nameless subcommand"
  else
    let* x := derefCmd c in
    storeCmd c (mkCmd (Name x) (Description x) (Flags x)
                      (Some (<[Name y := cmd]> m)) (Run x)).

(** [New(name, run)] *)
Definition New (name : string) (run : option RunFunc) : M ptr :=
  let* f := NewFlagSet name ExitOnError in
  let* c := allocCmd (mkCmd name "" (Some f) None run) in
  let* fs := derefFlagSet f in
  storeFlagSet f (mkFlagSet (Some (newUsageOf c)) (fs_name fs) (parsed fs) (actual fs)
                            (formal fs) (fs_args fs) (errorHandling fs));;
  let* h := newHelpCmd c in
  AddCmd c h;;
  ret c.

(** Calling [c.Run(c, args)]. *)
Definition callRun (run : RunFunc) (c : ptr) (args : slice) : M (option error) :=
  match run with
  | helpRunOf parent => helpRun parent c args
  | userRun id => fun w => (w, Return (actions id w c args))
  end.

(** The subcommand the first positional argument names, as the test on
    [c.Commands] and [c.Flags.Arg(0)] in [ExecArgs] finds it. *)
Definition matchSub (cmd : Cmd) (fs : FlagSet) : option ptr :=
  match Commands cmd with
  | None => None
  | Some m => if decide (Arg fs 0 = "") then None else m !! Arg fs 0
  end.

(** [ExecArgs], lines 179-182: make sure there is a non-nil flag set. *)
Definition ExecArgs_flags (c : ptr) : M ptr :=
  let* cmd := derefCmd c in
  match Flags cmd with
  | Some f => ret f
  | None =>
      let* f := NewFlagSet os_Args0 ExitOnError in
      storeCmd c (mkCmd (Name cmd) (Description cmd) (Some f) (Commands cmd) (Run cmd));;
      ret f
  end.

(** [ExecArgs], lines 184-188: parse the given arguments. *)
Definition ExecArgs_parse (c : ptr) (args : slice) : M ptr :=
  let* f := ExecArgs_flags c in
  let* err := Parse callUsage f args in
  match err with
  | Some e =>
      Fprint ("error parsing arguments: " +:+ Error e +:+ NL);;
      os_Exit 2%Z
  | None => ret f
  end.

(** [ExecArgs], lines 215-219: call the [RunFunc] and report its error. *)
Definition invoke (run : RunFunc) (c : ptr) (args : slice) : M unit :=
  let* err := callRun run c args in
  match err with
  | Some e =>
      Fprint ("error: " +:+ Error e +:+ NL);;
      os_Exit 1%Z
  | None => ret tt
  end.

(** [ExecArgs], lines 190-219. The call of [sub.ExecArgs] is the last thing
    an activation does, so this part either ends the dispatch ([None]) or
    names the subcommand and the arguments to go on with. *)
Definition ExecArgs_route (c f : ptr) : M (option (ptr * slice)) :=
  let* cmd := derefCmd c in
  let* fs := derefFlagSet f in
  match matchSub cmd fs with
  | Some sub =>
      if decide (1 < NArg fs) then
        match slice_from1 (Args fs) with
        | Some rest => ret (Some (sub, rest))
        | None => panic out_of_range
        end
      else ret (Some (sub, nil_slice))
  | None =>
      match Run cmd with
      | None =>
          Usage_call callUsage f;;
          os_Exit 1%Z
      | Some run =>
          invoke run c (Args fs);;
          ret None
      end
  end.

(** One activation of [c.ExecArgs(args)]. *)
Definition ExecArgs_step (c : ptr) (args : slice) : M (option (ptr * slice)) :=
  let* f := ExecArgs_parse c args in
  ExecArgs_route c f.

(** [c.ExecArgs(args)]. Every nested call receives fewer arguments than its
    caller, so [S (len args)] activations are enough (see
    [ExecArgs_terminates]). *)
Fixpoint ExecArgs_fuel (n : nat) (c : ptr) (args : slice) (w : World)
  : option (World * Result unit) :=
  match n with
  | 0 => None
  | S n =>
      match ExecArgs_step c args w with
      | (w', Return (Some (sub, rest))) => ExecArgs_fuel n sub rest w'
      | (w', Return None) => Some (w', Return tt)
      | (w', Exit code) => Some (w', Exit code)
      | (w', Panic msg) => Some (w', Panic msg)
      end
  end.

Definition ExecArgs (c : ptr) (args : slice) (w : World) : option (World * Result unit) :=
  ExecArgs_fuel (S (len args)) c args w.

(** [c.Exec()] *)
Definition Exec (c : ptr) (w : World) : option (World * Result unit) :=
  ExecArgs c (mk_slice os_Args1) w.

(** * The vocabulary of the properties *)

(** A flag given as [--name=value]. *)
Definition flagToken (name value : string) : string :=
  "--" +:+ name +:+ "=" +:+ value.

(** A flag name that [parseOne] reads back unchanged: it is not empty, does
    not start with ['-'] or ['='], and has no ['='] further on. *)
Definition plainName (name : string) : Prop :=
  match name with
  | "" => False
  | String c r => c ≠ "-"%char ∧ c ≠ "="%char ∧ cutEq r = None
  end.

(** The flag set as [Parse] leaves it. *)
Definition parsedSet (fs : FlagSet) (act : gmap string string) (args : slice) : FlagSet :=
  mkFlagSet (Usage fs) (fs_name fs) true act (formal fs) args (errorHandling fs).

(** The [Flags] field of a node only ever goes from nil to a flag set that
    did not exist before. *)
Definition flags_frame (w w' : World) (x y : Cmd) : Prop :=
  match Flags x with
  | Some f => Flags y = Some f
  | None =>
      Flags y = None
      ∨ ∃ f, Flags y = Some f ∧ flagsets w !! f = None ∧ is_Some (flagsets w' !! f)
  end.

Record cmd_frame (w w' : World) (x y : Cmd) : Prop := mk_cmd_frame {
  frame_Name : Name y = Name x;
  frame_Description : Description y = Description x;
  frame_Commands : Commands y = Commands x;
  frame_Run : Run y = Run x;
  frame_Flags : flags_frame w w' x y
}.

(** Parsing changes [parsed], [actual] and [args] of a flag set, nothing else. *)
Record fs_frame (x y : FlagSet) : Prop := mk_fs_frame {
  frame_Usage : Usage y = Usage x;
  frame_fs_name : fs_name y = fs_name x;
  frame_formal : formal y = formal x;
  frame_errorHandling : errorHandling y = errorHandling x
}.

Record extends (w w' : World) : Prop := mk_extends {
  ext_length : length (cmds w') = length (cmds w);
  ext_cmds : ∀ c x, cmds w !! c = Some x → ∃ y, cmds w' !! c = Some y ∧ cmd_frame w w' x y;
  ext_flagsets :
    ∀ f x, flagsets w !! f = Some x → ∃ y, flagsets w' !! f = Some y ∧ fs_frame x y;
  ext_new :
    ∀ f y, flagsets w !! f = None → flagsets w' !! f = Some y →
           errorHandling y = ExitOnError
}.

(** The world after a flag set was made for a node that had none. *)
Definition withNewFlags (w : World) (c : ptr) (cmd : Cmd) (name : string) : World :=
  mkWorld
    (<[c := mkCmd (Name cmd) (Description cmd) (Some (length (flagsets w)))
                  (Commands cmd) (Run cmd)]> (cmds w))
    (flagsets w
     ++ [mkFlagSet (Some (defaultUsageOf (length (flagsets w)))) name false ∅ ∅
                   nil_slice ExitOnError])
    (stderr w).

(** A computation that keeps the frame, however it ends. *)
Definition preserves {A} (m : M A) : Prop :=
  ∀ w w' r, m w = (w', r) → extends w w'.

(** A non-nil [Flags] pointer of a node points to a flag set. *)
Definition valid_flags (w : World) : Prop :=
  ∀ c cmd f, cmds w !! c = Some cmd → Flags cmd = Some f → is_Some (flagsets w !! f).

(** The world once [Parse] has stored the state of flag set [f]. *)
Definition parsedWorld (w : World) (f : ptr) (fs : FlagSet) : World :=
  mkWorld (cmds w) (<[f := fs]> (flagsets w)) (stderr w).


(** The line of a child in the listing. *)
Definition listingRow (cs : list Cmd) (m : gmap string ptr) (name : string) : string :=
  row name (default "" (Description <$> (m !! name ≫= (fun p => cs !! p)))).

(** Every node of [w] is still there in [w'] with the same name,
    description, children and action, and no node was added; a [Flags]
    field that was set is the same, one that was nil is nil or points to a
    flag set made since. *)
Definition nodes_kept (w w' : World) : Prop :=
  length (cmds w') = length (cmds w)
  ∧ ∀ a x, cmds w !! a = Some x →
      ∃ y, cmds w' !! a = Some y
           ∧ Name y = Name x ∧ Description y = Description x
           ∧ Commands y = Commands x ∧ Run y = Run x
           ∧ match Flags x with
             | Some f => Flags y = Some f
             | None => Flags y = None ∨ ∃ f, Flags y = Some f ∧ flagsets w !! f = None
             end.

(** [valid_flags] can be checked by running over the nodes. *)
Definition check_flags (w : World) : bool :=
  forallb (fun cmd => match Flags cmd with
                      | Some f => bool_decide (f < length (flagsets w))
                      | None => true
                      end) (cmds w).

(** The [Flags] pointer of a node, when set, points to a flag set. *)
Definition flags_ok (w : World) (cmd : Cmd) : Prop :=
  ∀ f, Flags cmd = Some f → is_Some (flagsets w !! f).

(** Every child of a node is a node of the store. *)
Definition children_ok (w : World) (cmd : Cmd) : Prop :=
  ∀ m n p, Commands cmd = Some m → m !! n = Some p → is_Some (cmds w !! p).

(** What [printSubcommands] writes for a node with valid children. *)
Definition listingText (cs : list Cmd) (cmd : Cmd) : list Write :=
  match Commands cmd with
  | None => []
  | Some m => [Text (NL +:+ "Commands" +:+ NL); Table (listingRow cs m <$> subNames m)]
  end.

(** What the closure of [newUsage] writes for a node with valid children
    and the registered flags [fm]. *)
Definition usageText (cs : list Cmd) (cmd : Cmd) (fm : gmap string Flag) : list Write :=
  Text (Name cmd +:+ " - " +:+ Description cmd +:+ NL)
  :: listingText cs cmd ++ [Text (NL +:+ "Flags" +:+ NL); Defaults fm].

(** The world with [out] written to the error stream. *)
Definition written (w : World) (out : list Write) : World :=
  mkWorld (cmds w) (flagsets w) (stderr w ++ out).

(** A computation that exits, if it does, with status 0, 1 or 2. *)
Definition exit_ok {A} (m : M A) : Prop :=
  ∀ w w' code, m w = (w', Exit code) → code = 0%Z ∨ code = 1%Z ∨ code = 2%Z.

(** The first argument, if there is one, is not read as a flag. *)
Definition startsPositional (args : slice) : Prop :=
  match elems args with
  | [] => True
  | s :: _ => readToken s = Positional
  end.

(** What the help action writes for the node it has picked: the usage text
    of [newUsage] when the node has a flag set, else only the first line
    and the listing. *)
Definition helpText (w : World) (cmd : Cmd) : list Write :=
  match Flags cmd with
  | None => Text (Name cmd +:+ " - " +:+ Description cmd +:+ NL) :: listingText (cmds w) cmd
  | Some f => usageText (cmds w) cmd (default ∅ (formal <$> flagsets w !! f))
  end.

(** A node as [New] leaves it, also after children were added: it has a
    flag set whose [Usage] is the node's own [newUsage] closure. *)
Definition usageNode (w : World) (c : ptr) (cmd : Cmd) (f : ptr) (fs : FlagSet) : Prop :=
  cmds w !! c = Some cmd ∧ Flags cmd = Some f ∧ flagsets w !! f = Some fs
  ∧ Usage fs = Some (newUsageOf c) ∧ children_ok w cmd.

(** A help command as [newHelpCmd] makes it for [parent]; dispatch may have
    given it a flag set since. *)
Definition helpNode (w : World) (h parent : ptr) : Prop :=
  ∃ hc, cmds w !! h = Some hc ∧ flags_ok w hc ∧ Commands hc = None
        ∧ Run hc = Some (helpRunOf parent).

(** The node the help action picks: its parent, or the child that the
    first argument names. *)
Definition helpTarget (w : World) (parent : ptr) (args : slice) (q : ptr) : Prop :=
  match elems args with
  | [] => q = parent
  | a0 :: _ =>
      ∃ p, cmds w !! parent = Some p
           ∧ match Commands p with
             | None => q = parent
             | Some m => m !! a0 = Some q
             end
  end.

(** The node, the help command and the flag set that [New(name, run)] adds
    to the world [w]. *)
Definition newRoot (name : string) (run : option RunFunc) (w : World) : Cmd :=
  mkCmd name "" (Some (length (flagsets w))) (Some {["help" := S (length (cmds w))]}) run.

Definition newHelp (name : string) (w : World) : Cmd :=
  mkCmd "help" ("Print the help message for " +:+ name +:+ " or a subcommand")
        None None (Some (helpRunOf (length (cmds w)))).

Definition newFlags (name : string) (w : World) : FlagSet :=
  mkFlagSet (Some (newUsageOf (length (cmds w)))) name false ∅ ∅ nil_slice ExitOnError.

(** The usage text of a node fresh from [New]. *)
Definition newUsageText (name : string) : list Write :=
  [Text (name +:+ " - " +:+ "" +:+ NL);
   Text (NL +:+ "Commands" +:+ NL);
   Table [row "help" ("Print the help message for " +:+ name +:+ " or a subcommand")];
   Text (NL +:+ "Flags" +:+ NL);
   Defaults ∅].

(** [flags_ok] and [children_ok], checked by running over the node. *)
Definition check_flags_of (w : World) (cmd : Cmd) : bool :=
  match Flags cmd with
  | None => true
  | Some f => bool_decide (f < length (flagsets w))
  end.

Definition check_children (w : World) (cmd : Cmd) : bool :=
  match Commands cmd with
  | None => true
  | Some m => forallb (fun kp => bool_decide (kp.2 < length (cmds w))) (map_to_list m)
  end.

(** What [defaultUsage] writes for a flag set called [name] with the
    registered flags [fm]. *)
Definition defaultUsageText (name : string) (fm : gmap string Flag) : list Write :=
  [Text (if decide (name = "") then "Usage:" +:+ NL
         else "Usage of " +:+ name +:+ ":" +:+ NL);
   Defaults fm].

(** * Properties *)

(** ** The argument loop of [Parse] *)

Lemma parseArgs_length fm args :
  ∀ act act' rest e,
    parseArgs fm act args = (act', rest, e) → length rest ≤ length args.
Proof.
  induction args as [args IH] using (induction_ltof1 _ (@length string)).
  unfold ltof in IH. intros act act' rest e.
  destruct args as [|s args]; simpl; [intros; simplify_eq; simpl; lia|].
  intros H. repeat case_match; simplify_eq; simpl; try lia;
    match goal with
    | H : parseArgs _ _ _ = _ |- _ => apply IH in H; simpl in *; lia
    end.
Qed.

Lemma parseArgs_positional fm act s rest :
  readToken s = Positional →
  parseArgs fm act (s :: rest) = (act, s :: rest, parseDone).
Proof. intros H. simpl. by rewrite H. Qed.

Lemma cutEq_app r v : cutEq r = None → cutEq (r +:+ "=" +:+ v) = Some (r, v).
Proof.
  induction r as [|c r IH]; simpl; [done|].
  case_decide; [done|]. destruct (cutEq r) as [[??]|] eqn:E; [done|].
  intros _. by rewrite IH.
Qed.

Lemma readToken_flagToken name v :
  plainName name →
  readToken (flagToken name v) = FlagToken (name +:+ "=" +:+ v)
  ∧ splitValue (name +:+ "=" +:+ v) = (name, Some v).
Proof.
  destruct name as [|c r]; [done|]. intros (H1 & H2 & H3).
  unfold flagToken. simpl. repeat case_decide; try done.
  by rewrite cutEq_app.
Qed.

Lemma parseArgs_flagToken fm act name v fl rest :
  plainName name → fm !! name = Some fl → flag_Set fl v = None →
  parseArgs fm act (flagToken name v :: rest) = parseArgs fm (<[name := v]> act) rest.
Proof.
  intros Hn Hfl Hset. destruct (readToken_flagToken name v Hn) as [Hr Hs].
  cbn [parseArgs]. rewrite Hr, Hs, Hfl, Hset. by destruct (IsBoolFlag fl).
Qed.

(** ** Running the primitives *)

Ltac mred :=
  unfold ret, os_Exit, panic, Fprint, emit, storeCmd, storeFlagSet, allocCmd,
    allocFlagSet, bind in *;
  simpl in *.

Ltac mcases := simplify_eq /=; repeat (case_match; simplify_eq /=).

Lemma derefCmd_Some c x w : cmds w !! c = Some x → derefCmd c w = (w, Return x).
Proof. intros H. unfold derefCmd. by rewrite H. Qed.

Lemma derefCmd_None c w : cmds w !! c = None → derefCmd c w = (w, Panic nil_deref).
Proof. intros H. unfold derefCmd. by rewrite H. Qed.

Lemma derefFlagSet_Some f x w :
  flagsets w !! f = Some x → derefFlagSet f w = (w, Return x).
Proof. intros H. unfold derefFlagSet. by rewrite H. Qed.

Lemma derefCmd_inv c w w' r :
  derefCmd c w = (w', r) →
  w' = w ∧ (cmds w !! c = None ∧ r = Panic nil_deref ∨ ∃ x, cmds w !! c = Some x ∧ r = Return x).
Proof. unfold derefCmd. destruct (cmds w !! c); intros; simplify_eq; eauto. Qed.

Lemma derefFlagSet_inv f w w' r :
  derefFlagSet f w = (w', r) →
  w' = w ∧ (flagsets w !! f = None ∧ r = Panic nil_deref
            ∨ ∃ x, flagsets w !! f = Some x ∧ r = Return x).
Proof. unfold derefFlagSet. destruct (flagsets w !! f); intros; simplify_eq; eauto. Qed.

Lemma Parse_done call f arguments w fs act rest :
  flagsets w !! f = Some fs →
  parseArgs (formal fs) (actual fs) (elems arguments) = (act, rest, parseDone) →
  Parse call f arguments w
  = (mkWorld (cmds w)
             (<[f := parsedSet fs act (restSlice arguments rest)]> (flagsets w))
             (stderr w),
     Return None).
Proof.
  intros Hf Hp. unfold Parse, bind. rewrite (derefFlagSet_Some _ _ _ Hf), Hp. done.
Qed.

Lemma Parse_inv_done call f arguments w w1 :
  Parse call f arguments w = (w1, Return None) →
  ∃ fs act rest,
    flagsets w !! f = Some fs
    ∧ parseArgs (formal fs) (actual fs) (elems arguments) = (act, rest, parseDone)
    ∧ w1 = mkWorld (cmds w)
                   (<[f := parsedSet fs act (restSlice arguments rest)]> (flagsets w))
                   (stderr w).
Proof.
  unfold Parse, bind. intros H.
  destruct (derefFlagSet f w) as [w0 r0] eqn:Hd.
  apply derefFlagSet_inv in Hd as [-> [[? ->]|(fs & Hfs & ->)]]; [done|].
  destruct (parseArgs _ _ _) as [[act rest] e] eqn:Hp. simpl in H.
  destruct e; unfold failf, usage in H; mred.
  - simplify_eq. by exists fs, act, rest.
  - mcases.
  - mcases.
Qed.

(** ** What dispatch and help rendering leave alone *)

Lemma fs_frame_refl x : fs_frame x x.
Proof. by split. Qed.

Lemma cmd_frame_refl w w' x : cmd_frame w w' x x.
Proof. split; try done. unfold flags_frame. destruct (Flags x); auto. Qed.

Lemma extends_same w w' :
  cmds w' = cmds w → flagsets w' = flagsets w → extends w w'.
Proof.
  intros Hc Hf. split.
  - by rewrite Hc.
  - intros c x Hx. exists x. rewrite Hc. split; [done|apply cmd_frame_refl].
  - intros f x Hx. exists x. rewrite Hf. split; [done|apply fs_frame_refl].
  - intros f y H1 H2. rewrite Hf in H2. congruence.
Qed.

Lemma extends_refl w : extends w w.
Proof. by apply extends_same. Qed.

Lemma extends_trans w1 w2 w3 : extends w1 w2 → extends w2 w3 → extends w1 w3.
Proof.
  intros [L1 C1 F1 N1] [L2 C2 F2 N2]. split.
  - congruence.
  - intros c x Hx. destruct (C1 c x Hx) as (y & Hy & [A1 A2 A3 A4 A5]).
    destruct (C2 c y Hy) as (z & Hz & [B1 B2 B3 B4 B5]).
    exists z. split; [done|]. split; try congruence.
    unfold flags_frame in *. destruct (Flags x) as [f|] eqn:Ex.
    + by rewrite A5 in B5.
    + destruct A5 as [A5|(f & A5 & Hn & Hs)].
      * rewrite A5 in B5. destruct B5 as [B5|(f & B5 & Hn & Hs)]; [by left|].
        right. exists f. split; [done|]. split; [|done].
        destruct (flagsets w1 !! f) as [x1|] eqn:E1; [|done].
        destruct (F1 f x1 E1) as (? & ? & _). congruence.
      * rewrite A5 in B5. right. exists f. split; [done|]. split; [done|].
        destruct Hs as [y2 Hy2]. destruct (F2 f y2 Hy2) as (? & ? & _). eauto.
  - intros f x Hx. destruct (F1 f x Hx) as (y & Hy & [A1 A2 A3 A4]).
    destruct (F2 f y Hy) as (z & Hz & [B1 B2 B3 B4]).
    exists z. split; [done|]. split; congruence.
  - intros f z Hn Hz. destruct (flagsets w2 !! f) as [y|] eqn:Ey.
    + destruct (F2 f y Ey) as (z' & Hz' & [_ _ _ B4]).
      rewrite Hz in Hz'. simplify_eq. rewrite B4. eauto.
    + eauto.
Qed.

Lemma extends_storeFlagSet w f fs fs' :
  flagsets w !! f = Some fs → fs_frame fs fs' →
  extends w (mkWorld (cmds w) (<[f := fs']> (flagsets w)) (stderr w)).
Proof.
  intros Hf Hfr. split; simpl.
  - done.
  - intros c x Hx. exists x. split; [done|apply cmd_frame_refl].
  - intros g x Hx. destruct (decide (g = f)) as [->|Hne].
    + exists fs'. rewrite list_lookup_insert_eq by eauto using lookup_lt_Some.
      by simplify_eq.
    + exists x. rewrite list_lookup_insert_ne by done. split; [done|apply fs_frame_refl].
  - intros g y Hn Hy. apply lookup_lt_Some in Hy. rewrite length_insert in Hy.
    apply lookup_ge_None in Hn. lia.
Qed.

Lemma extends_withNewFlags w c cmd name :
  cmds w !! c = Some cmd → Flags cmd = None → extends w (withNewFlags w c cmd name).
Proof.
  intros Hc Hn. split; simpl.
  - by rewrite length_insert.
  - intros d x Hx. destruct (decide (d = c)) as [->|Hne].
    + rewrite list_lookup_insert_eq by eauto using lookup_lt_Some.
      eexists. split; [done|]. simplify_eq. split; try done.
      unfold flags_frame. rewrite Hn. simpl. right. eexists. split; [done|]. split.
      * apply lookup_ge_None. lia.
      * rewrite lookup_app_r by lia. rewrite Nat.sub_diag. simpl. eauto.
    + rewrite list_lookup_insert_ne by done. exists x. split; [done|apply cmd_frame_refl].
  - intros f x Hx. exists x. split; [|apply fs_frame_refl].
    by apply lookup_app_l_Some.
  - intros f y Hnone Hy. apply lookup_ge_None in Hnone.
    rewrite lookup_app_r in Hy by lia.
    destruct (f - length (flagsets w)) as [|k]; simpl in Hy; [by simplify_eq|].
    by destruct k.
Qed.

Lemma preserves_bind {A B} (m : M A) (k : A → M B) :
  preserves m → (∀ a, preserves (k a)) → preserves (bind m k).
Proof.
  intros Hm Hk w w' r. unfold bind.
  destruct (m w) as [w1 [a|code|msg]] eqn:E; intros H.
  - eapply extends_trans; [by eapply Hm|by eapply Hk].
  - simplify_eq. by eapply Hm.
  - simplify_eq. by eapply Hm.
Qed.

Lemma preserves_ret {A} (a : A) : preserves (ret a).
Proof. intros w w' r H. unfold ret in H. simplify_eq. apply extends_refl. Qed.

Lemma preserves_panic {A} msg : preserves (@panic A msg).
Proof. intros w w' r H. unfold panic in H. simplify_eq. apply extends_refl. Qed.

Lemma preserves_os_Exit {A} code : preserves (@os_Exit A code).
Proof. intros w w' r H. unfold os_Exit in H. simplify_eq. apply extends_refl. Qed.

Lemma preserves_emit x : preserves (emit x).
Proof. intros w w' r H. unfold emit in H. simplify_eq. by apply extends_same. Qed.

Lemma preserves_Fprint s : preserves (Fprint s).
Proof. apply preserves_emit. Qed.

Lemma preserves_derefCmd c : preserves (derefCmd c).
Proof. intros w w' r H. apply derefCmd_inv in H as [-> _]. apply extends_refl. Qed.

Lemma preserves_derefFlagSet f : preserves (derefFlagSet f).
Proof. intros w w' r H. apply derefFlagSet_inv in H as [-> _]. apply extends_refl. Qed.

Create HintDb frame.

Hint Resolve preserves_ret preserves_panic preserves_os_Exit preserves_emit
  preserves_Fprint preserves_derefCmd preserves_derefFlagSet : frame.

Ltac frame :=
  repeat first
    [ solve [eauto with frame]
    | match goal with
      | |- preserves (bind _ _) => apply preserves_bind; [|intros ?]
      | |- preserves (match ?x with _ => _ end) => destruct x
      | |- preserves (if ?x then _ else _) => destruct x
      end ].

Lemma preserves_PrintDefaults f : preserves (PrintDefaults f).
Proof. unfold PrintDefaults. frame. Qed.

Lemma preserves_defaultUsage f : preserves (defaultUsage f).
Proof. unfold defaultUsage. pose proof preserves_PrintDefaults. frame. Qed.

Lemma preserves_printSubcommands c : preserves (printSubcommands c).
Proof.
  unfold printSubcommands. apply preserves_bind; [frame|]. intros cmd.
  destruct (Commands cmd) as [m|]; [|frame].
  apply preserves_bind; [frame|]. intros _ w w' r.
  destruct (writeRows (cmds w) m (subNames m)) as [lines ok].
  assert (preserves (emit (Table lines);; if ok then ret tt else panic nil_deref)) as Hp
    by frame.
  apply Hp.
Qed.

(** The lazy creation of a flag set, as [ExecArgs] and [newUsage] do it. *)
Lemma lazy_flags_inv c cmd name w w' r :
  cmds w !! c = Some cmd →
  match Flags cmd with
  | Some f => ret f
  | None =>
      let* f := NewFlagSet name ExitOnError in
      storeCmd c (mkCmd (Name cmd) (Description cmd) (Some f) (Commands cmd) (Run cmd));;
      ret f
  end w = (w', r) →
  (∃ f, Flags cmd = Some f ∧ w' = w ∧ r = Return f)
  ∨ (Flags cmd = None ∧ w' = withNewFlags w c cmd name
     ∧ r = Return (length (flagsets w))).
Proof.
  intros Hc. destruct (Flags cmd) as [f|] eqn:E.
  - unfold ret. intros. simplify_eq. left. eauto.
  - unfold NewFlagSet. mred. intros. simplify_eq. right. done.
Qed.

Lemma lazy_flags_extends c cmd name w w' r :
  cmds w !! c = Some cmd →
  match Flags cmd with
  | Some f => ret f
  | None =>
      let* f := NewFlagSet name ExitOnError in
      storeCmd c (mkCmd (Name cmd) (Description cmd) (Some f) (Commands cmd) (Run cmd));;
      ret f
  end w = (w', r) →
  extends w w'.
Proof.
  intros Hc H.
  destruct (lazy_flags_inv _ _ _ _ _ _ Hc H) as [(f & _ & -> & _)|(Hn & -> & _)].
  - apply extends_refl.
  - by apply extends_withNewFlags.
Qed.

Hint Resolve preserves_PrintDefaults preserves_defaultUsage
  preserves_printSubcommands : frame.

Lemma preserves_lazy_bind {A} c (name : Cmd → string) (k : Cmd → ptr → M A) :
  (∀ cmd f, preserves (k cmd f)) →
  preserves
    (let* cmd := derefCmd c in
     let* f := match Flags cmd with
               | Some f => ret f
               | None =>
                   let* f := NewFlagSet (name cmd) ExitOnError in
                   storeCmd c (mkCmd (Name cmd) (Description cmd) (Some f)
                                     (Commands cmd) (Run cmd));;
                   ret f
               end in
     k cmd f).
Proof.
  intros Hk w w' r. unfold bind at 1.
  destruct (derefCmd c w) as [w0 r0] eqn:Hd.
  apply derefCmd_inv in Hd as [-> [[? ->]|(cmd & Hc & ->)]].
  { intros. simplify_eq. apply extends_refl. }
  unfold bind at 1.
  match goal with
  | |- context [match ?m w with _ => _ end] => destruct (m w) as [w1 r1] eqn:Hl
  end.
  pose proof (lazy_flags_extends _ _ _ _ _ _ Hc Hl) as Hext.
  destruct r1 as [f|code|msg]; intros H; simplify_eq; try done.
  eapply extends_trans; [done|by eapply Hk].
Qed.

Lemma preserves_newUsage c : preserves (newUsage c).
Proof. unfold newUsage. apply (preserves_lazy_bind c Name). intros cmd f. frame. Qed.

Lemma preserves_callUsage u : preserves (callUsage u).
Proof. pose proof preserves_newUsage. destruct u; simpl; frame. Qed.

Hint Resolve preserves_newUsage preserves_callUsage : frame.

Lemma preserves_usage f : preserves (usage callUsage f).
Proof. unfold usage. frame. Qed.

Lemma preserves_Usage_call f : preserves (Usage_call callUsage f).
Proof. unfold Usage_call. frame. Qed.

Hint Resolve preserves_usage preserves_Usage_call : frame.

Lemma preserves_failf f msg : preserves (failf callUsage f msg).
Proof. unfold failf. frame. Qed.

Hint Resolve preserves_failf : frame.

Lemma preserves_Parse f arguments : preserves (Parse callUsage f arguments).
Proof.
  unfold Parse. intros w w' r. unfold bind at 1.
  destruct (derefFlagSet f w) as [w0 r0] eqn:Hd.
  apply derefFlagSet_inv in Hd as [-> [[? ->]|(fs & Hfs & ->)]].
  { intros. simplify_eq. apply extends_refl. }
  destruct (parseArgs _ _ _) as [[act rest] e].
  unfold bind at 1. unfold storeFlagSet at 1.
  intros H. eapply extends_trans.
  { eapply (extends_storeFlagSet _ _ _ (parsedSet fs act (restSlice arguments rest)));
      [done|by split]. }
  revert H. unfold parsedSet.
  match goal with
  | |- ?m ?a = (?b, ?c) → extends ?a' ?b => change (m a' = (b, c) → extends a' b);
      generalize a' b c; change (preserves m)
  end.
  frame.
Qed.

Hint Resolve preserves_Parse : frame.

Lemma preserves_helpRun parent c args : preserves (helpRun parent c args).
Proof. unfold helpRun. frame. Qed.

Lemma preserves_callRun run c args : preserves (callRun run c args).
Proof.
  destruct run; simpl; [apply preserves_helpRun|].
  intros w w' r H. simplify_eq. apply extends_refl.
Qed.

Hint Resolve preserves_helpRun preserves_callRun : frame.

Lemma preserves_invoke run c args : preserves (invoke run c args).
Proof. unfold invoke. frame. Qed.

Hint Resolve preserves_invoke : frame.

Lemma preserves_ExecArgs_flags c : preserves (ExecArgs_flags c).
Proof.
  unfold ExecArgs_flags. intros w w' r. unfold bind at 1.
  destruct (derefCmd c w) as [w0 r0] eqn:Hd.
  apply derefCmd_inv in Hd as [-> [[? ->]|(cmd & Hc & ->)]].
  { intros. simplify_eq. apply extends_refl. }
  by apply lazy_flags_extends.
Qed.

Hint Resolve preserves_ExecArgs_flags : frame.

Lemma preserves_ExecArgs_parse c args : preserves (ExecArgs_parse c args).
Proof. unfold ExecArgs_parse. frame. Qed.

Lemma preserves_ExecArgs_route c f : preserves (ExecArgs_route c f).
Proof. unfold ExecArgs_route. frame. Qed.

Hint Resolve preserves_ExecArgs_parse preserves_ExecArgs_route : frame.

Lemma preserves_ExecArgs_step c args : preserves (ExecArgs_step c args).
Proof. unfold ExecArgs_step. frame. Qed.

Lemma extends_ExecArgs_fuel n :
  ∀ c args w w' r, ExecArgs_fuel n c args w = Some (w', r) → extends w w'.
Proof.
  induction n as [|n IH]; intros c args w w' r; simpl; [done|].
  destruct (ExecArgs_step c args w) as [w1 r1] eqn:Hs.
  apply preserves_ExecArgs_step in Hs.
  destruct r1 as [[[sub rest]|]|code|msg]; intros H; simplify_eq; try done.
  eapply extends_trans; [done|by eapply IH].
Qed.

(** ** The shape of a dispatch *)

Lemma ExecArgs_flags_inv c w w0 f :
  ExecArgs_flags c w = (w0, Return f) →
  ∃ cmd, cmds w !! c = Some cmd
         ∧ (Flags cmd = Some f ∧ w0 = w
            ∨ Flags cmd = None ∧ f = length (flagsets w)
              ∧ w0 = withNewFlags w c cmd os_Args0).
Proof.
  unfold ExecArgs_flags, bind. destruct (derefCmd c w) as [w' r'] eqn:Hd.
  apply derefCmd_inv in Hd as [-> [[? ->]|(cmd & Hc & ->)]]; [done|].
  intros H. exists cmd. split; [done|].
  destruct (lazy_flags_inv _ _ _ _ _ _ Hc H) as [(g & ? & ? & ?)|(? & ? & ?)];
    simplify_eq; auto.
Qed.

Lemma ExecArgs_parse_inv c args w w1 f :
  ExecArgs_parse c args w = (w1, Return f) →
  ∃ w0 fs act rest,
    ExecArgs_flags c w = (w0, Return f)
    ∧ flagsets w0 !! f = Some fs
    ∧ parseArgs (formal fs) (actual fs) (elems args) = (act, rest, parseDone)
    ∧ w1 = mkWorld (cmds w0)
                   (<[f := parsedSet fs act (restSlice args rest)]> (flagsets w0))
                   (stderr w0).
Proof.
  unfold ExecArgs_parse. unfold bind at 1.
  destruct (ExecArgs_flags c w) as [w0 [g|code|msg]] eqn:Hf; [|done..].
  unfold bind at 1.
  destruct (Parse callUsage g args w0) as [w2 [[e|]|code|msg]] eqn:Hp; mred; [done| |done..].
  intros H. simplify_eq.
  apply Parse_inv_done in Hp as (fs & act & rest & ? & ? & ->).
  by exists w0, fs, act, rest.
Qed.

Lemma ExecArgs_parse_done c args w w0 f fs act rest :
  ExecArgs_flags c w = (w0, Return f) →
  flagsets w0 !! f = Some fs →
  parseArgs (formal fs) (actual fs) (elems args) = (act, rest, parseDone) →
  ExecArgs_parse c args w
  = (mkWorld (cmds w0)
             (<[f := parsedSet fs act (restSlice args rest)]> (flagsets w0))
             (stderr w0),
     Return f).
Proof.
  intros Hf Hfs Hp. unfold ExecArgs_parse. unfold bind at 1. rewrite Hf.
  unfold bind at 1. by rewrite (Parse_done _ _ _ _ _ _ _ Hfs Hp).
Qed.

Lemma matchSub_Some cmd fs sub :
  matchSub cmd fs = Some sub →
  ∃ m a l, Commands cmd = Some m ∧ elems (fs_args fs) = a :: l ∧ a ≠ ""
           ∧ m !! a = Some sub.
Proof.
  unfold matchSub, Arg. destruct (Commands cmd) as [m|]; [|done].
  case_decide as Ha; [done|]. intros H.
  destruct (elems (fs_args fs)) as [|a l] eqn:E; [done|].
  simpl in *. by exists m, a, l.
Qed.

Lemma matchSub_None cmd fs :
  (∀ m, Commands cmd = Some m → m !! Arg fs 0 = None) → matchSub cmd fs = None.
Proof.
  intros H. unfold matchSub. destruct (Commands cmd) as [m|]; [|done].
  case_decide; [done|]. by apply H.
Qed.

Lemma len_restSlice args rest :
  length rest ≤ len args → len (restSlice args rest) ≤ len args.
Proof. destruct args; simpl; unfold len; simpl; lia. Qed.

(** What a nested call of [ExecArgs] receives is shorter than [args]. *)
Lemma ExecArgs_step_shrinks c args w w' sub rest :
  ExecArgs_step c args w = (w', Return (Some (sub, rest))) → len rest < len args.
Proof.
  unfold ExecArgs_step. unfold bind at 1.
  destruct (ExecArgs_parse c args w) as [w1 [f|code|msg]] eqn:Hp; [|done..].
  apply ExecArgs_parse_inv in Hp as (w0 & fs & act & rest0 & _ & Hfs & Hpa & ->).
  apply parseArgs_length in Hpa. apply (len_restSlice args) in Hpa.
  unfold ExecArgs_route. unfold bind at 1.
  match goal with
  | |- context [derefCmd c ?x] => destruct (derefCmd c x) as [w2 r2] eqn:Hd
  end.
  apply derefCmd_inv in Hd as [-> [[? ->]|(cmd & Hc & ->)]]; [done|].
  unfold bind at 1. unfold derefFlagSet; simpl.
  rewrite list_lookup_insert_eq by eauto using lookup_lt_Some.
  set (fs1 := parsedSet fs act (restSlice args rest0)) in *.
  destruct (matchSub cmd fs1) as [sub'|] eqn:Hm.
  - apply matchSub_Some in Hm as (m & a & l & _ & Hel & _ & _).
    assert (len (fs_args fs1) = S (length l)) as Hlen by (unfold len; by rewrite Hel).
    simpl in Hlen, Hel. unfold NArg, Args. simpl.
    case_decide.
    + destruct (restSlice args rest0) as [|[|? l']] eqn:E; simpl in *; try done.
      mred. intros; simplify_eq. unfold len in *. simpl in *. lia.
    + mred. intros; simplify_eq. unfold len in *. simpl in *. lia.
  - destruct (Run cmd); mred; intros; mcases.
Qed.

Lemma ExecArgs_fuel_enough n :
  ∀ m c args w, len args < n → len args < m →
                ExecArgs_fuel n c args w = ExecArgs_fuel m c args w.
Proof.
  induction n as [|n IH]; intros [|m] c args w Hn Hm; try lia. simpl.
  destruct (ExecArgs_step c args w) as [w1 [[[sub rest]|]|code|msg]] eqn:Hs; try done.
  apply ExecArgs_step_shrinks in Hs. apply IH; lia.
Qed.

Lemma ExecArgs_fuel_S n c args w :
  ExecArgs_fuel (S n) c args w
  = match ExecArgs_step c args w with
    | (w', Return (Some (sub, rest))) => ExecArgs_fuel n sub rest w'
    | (w', Return None) => Some (w', Return tt)
    | (w', Exit code) => Some (w', Exit code)
    | (w', Panic msg) => Some (w', Panic msg)
    end.
Proof. done. Qed.

(** [ExecArgs] as the source writes it: an activation, then the nested call. *)
Lemma ExecArgs_unfold c args w :
  ExecArgs c args w
  = match ExecArgs_step c args w with
    | (w', Return (Some (sub, rest))) => ExecArgs sub rest w'
    | (w', Return None) => Some (w', Return tt)
    | (w', Exit code) => Some (w', Exit code)
    | (w', Panic msg) => Some (w', Panic msg)
    end.
Proof.
  unfold ExecArgs at 1. rewrite ExecArgs_fuel_S.
  destruct (ExecArgs_step c args w) as [w1 [[[sub rest]|]|code|msg]] eqn:Hs; try done.
  apply ExecArgs_step_shrinks in Hs. unfold ExecArgs. apply ExecArgs_fuel_enough; lia.
Qed.

(** Dispatch always comes to an end: with a result, an exit or a panic. *)
Lemma ExecArgs_terminates c args w : is_Some (ExecArgs c args w).
Proof.
  remember (len args) as n eqn:Hn. revert c args w Hn.
  induction n as [n IH] using lt_wf_ind. intros c args w ->.
  rewrite ExecArgs_unfold.
  destruct (ExecArgs_step c args w) as [w1 [[[sub rest]|]|code|msg]] eqn:Hs; eauto.
  apply ExecArgs_step_shrinks in Hs. by eapply IH.
Qed.

Lemma extends_ExecArgs c args w w' r : ExecArgs c args w = Some (w', r) → extends w w'.
Proof. apply extends_ExecArgs_fuel. Qed.

Lemma ExecArgs_step_route c args w w1 f :
  ExecArgs_parse c args w = (w1, Return f) →
  ExecArgs_step c args w = ExecArgs_route c f w1.
Proof. intros H. unfold ExecArgs_step, bind. by rewrite H. Qed.

Lemma ExecArgs_route_run c f w1 cmd fs run :
  cmds w1 !! c = Some cmd → flagsets w1 !! f = Some fs →
  matchSub cmd fs = None → Run cmd = Some run →
  ExecArgs_route c f w1 = (invoke run c (Args fs);; ret None) w1.
Proof.
  intros Hc Hf Hm Hr. unfold ExecArgs_route. unfold bind at 1.
  rewrite (derefCmd_Some _ _ _ Hc). unfold bind at 1.
  rewrite (derefFlagSet_Some _ _ _ Hf). by rewrite Hm, Hr.
Qed.

Lemma ExecArgs_route_usage c f w1 cmd fs :
  cmds w1 !! c = Some cmd → flagsets w1 !! f = Some fs →
  matchSub cmd fs = None → Run cmd = None →
  ExecArgs_route c f w1 = (Usage_call callUsage f;; os_Exit 1%Z) w1.
Proof.
  intros Hc Hf Hm Hr. unfold ExecArgs_route. unfold bind at 1.
  rewrite (derefCmd_Some _ _ _ Hc). unfold bind at 1.
  rewrite (derefFlagSet_Some _ _ _ Hf). by rewrite Hm, Hr.
Qed.

Lemma ExecArgs_route_sub c f w1 cmd fs sub :
  cmds w1 !! c = Some cmd → flagsets w1 !! f = Some fs →
  matchSub cmd fs = Some sub →
  ExecArgs_route c f w1
  = (w1, Return (Some (sub, match elems (Args fs) with
                            | _ :: (_ :: _) as l => mk_slice l
                            | _ => nil_slice
                            end))).
Proof.
  intros Hc Hf Hm. unfold ExecArgs_route. unfold bind at 1.
  rewrite (derefCmd_Some _ _ _ Hc). unfold bind at 1.
  rewrite (derefFlagSet_Some _ _ _ Hf). rewrite Hm.
  unfold NArg, Args, len.
  destruct (fs_args fs) as [|[|a [|b l]]]; simpl; repeat case_decide; simpl in *;
    try done; lia.
Qed.

(** The dispatch ends with the call of the node's own [RunFunc]. *)
Lemma ExecArgs_run c args w w1 f cmd fs run :
  ExecArgs_parse c args w = (w1, Return f) →
  cmds w1 !! c = Some cmd → flagsets w1 !! f = Some fs →
  matchSub cmd fs = None → Run cmd = Some run →
  ExecArgs c args w = Some (invoke run c (Args fs) w1).
Proof.
  intros Hp Hc Hf Hm Hr. rewrite ExecArgs_unfold, (ExecArgs_step_route _ _ _ _ _ Hp).
  rewrite (ExecArgs_route_run _ _ _ _ _ _ Hc Hf Hm Hr). unfold bind.
  by destruct (invoke run c (Args fs) w1) as [w2 [[]|code|msg]].
Qed.

Lemma valid_flags_extends w w' : valid_flags w → extends w w' → valid_flags w'.
Proof.
  intros Hv [L C F N] c y f Hy Hf.
  destruct (cmds w !! c) as [x|] eqn:Hx.
  - destruct (C c x Hx) as (y' & Hy' & [_ _ _ _ Hfl]). simplify_eq.
    unfold flags_frame in Hfl. destruct (Flags x) as [g|] eqn:Hg.
    + simplify_eq. destruct (Hv c x f Hx Hg) as [z Hz].
      destruct (F f z Hz) as (? & ? & _). eauto.
    + destruct Hfl as [?|(g & ? & _ & ?)]; by simplify_eq.
  - apply lookup_ge_None in Hx. apply lookup_lt_Some in Hy. lia.
Qed.

(** An activation over a nil argument slice parses it and leaves [Args] nil. *)
Lemma ExecArgs_parse_nil c w cmd :
  valid_flags w → cmds w !! c = Some cmd →
  ∃ w1 f fs, ExecArgs_parse c nil_slice w = (w1, Return f)
             ∧ flagsets w1 !! f = Some fs ∧ Args fs = nil_slice ∧ NArg fs = 0.
Proof.
  intros Hv Hc.
  assert (∃ w0 f fs, ExecArgs_flags c w = (w0, Return f) ∧ flagsets w0 !! f = Some fs)
    as (w0 & f & fs & Hfl & Hfs).
  { unfold ExecArgs_flags, bind. rewrite (derefCmd_Some _ _ _ Hc).
    destruct (Flags cmd) as [f|] eqn:Hf.
    - destruct (Hv c cmd f Hc Hf) as [fs Hfs]. by exists w, f, fs.
    - unfold NewFlagSet. mred. eexists _, _, _. split; [done|].
      simpl. rewrite lookup_app_r by lia. by rewrite Nat.sub_diag. }
  eexists _, f, _. split; [|split].
  - by apply (ExecArgs_parse_done _ _ _ _ _ _ (actual fs) [] Hfl Hfs).
  - simpl. apply list_lookup_insert_eq. eauto using lookup_lt_Some.
  - done.
Qed.

Lemma parsedWorld_flagset w f fs fs' :
  flagsets w !! f = Some fs → flagsets (parsedWorld w f fs') !! f = Some fs'.
Proof. intros H. simpl. apply list_lookup_insert_eq. eauto using lookup_lt_Some. Qed.

(** C2 (as amended): when the one positional argument left after parsing
    names a registered child, dispatch goes on in that child with Go's nil
    slice, a sequence of length zero, and the child's flag set parses it
    successfully, leaving no positional arguments. *)
Theorem lone_subcommand_gets_nil_slice c args w w0 f fs cmd act tok m sub scmd :
  valid_flags w0 →
  ExecArgs_flags c w = (w0, Return f) →
  flagsets w0 !! f = Some fs → cmds w0 !! c = Some cmd →
  parseArgs (formal fs) (actual fs) (elems args) = (act, [tok], parseDone) →
  tok ≠ "" → Commands cmd = Some m → m !! tok = Some sub →
  cmds w0 !! sub = Some scmd →
  let w1 := parsedWorld w0 f (parsedSet fs act (restSlice args [tok])) in
  ExecArgs c args w = ExecArgs sub nil_slice w1
  ∧ len nil_slice = 0
  ∧ ∃ w2 g gs, ExecArgs_parse sub nil_slice w1 = (w2, Return g)
               ∧ flagsets w2 !! g = Some gs ∧ Args gs = nil_slice ∧ NArg gs = 0.
Proof.
  intros Hv Hfl Hf Hc Hpa Htok Hm Hsub Hs w1.
  pose proof (ExecArgs_parse_done _ _ _ _ _ _ _ _ Hfl Hf Hpa) as Hp.
  change (ExecArgs_parse c args w = (w1, Return f)) in Hp.
  assert (restSlice args [tok] = mk_slice [tok]) as Hrs.
  { destruct args; [|done]. simpl in Hpa. by simplify_eq. }
  split; [|split; [done|]].
  - rewrite ExecArgs_unfold, (ExecArgs_step_route _ _ _ _ _ Hp).
    rewrite (ExecArgs_route_sub _ _ w1 cmd _ sub Hc (parsedWorld_flagset _ _ _ _ Hf)).
    + by rewrite Hrs.
    + unfold matchSub, Arg. rewrite Hm. simpl. rewrite Hrs. simpl. by case_decide.
  - eapply ExecArgs_parse_nil; [|done].
    eapply valid_flags_extends; [done|].
    eapply extends_storeFlagSet; [done|by split].
Qed.


(** ** Routing along a path of subcommands *)






(** ** Exit statuses *)

(** [Parse] hands an error back to its caller only under [ContinueOnError]. *)
Lemma Parse_error_policy call f arguments w w1 e :
  Parse call f arguments w = (w1, Return (Some e)) →
  ∃ fs, flagsets w !! f = Some fs ∧ errorHandling fs = ContinueOnError.
Proof.
  unfold Parse. unfold bind at 1.
  destruct (derefFlagSet f w) as [w0 r0] eqn:Hd.
  apply derefFlagSet_inv in Hd as [-> [[? ->]|(fs & Hfs & ->)]]; [done|].
  intros H. exists fs. split; [done|].
  destruct (parseArgs _ _ _) as [[act rest] pe].
  destruct (errorHandling fs); [done|exfalso..];
    destruct pe; unfold failf in H; mred; mcases.
Qed.

(** With [ExitOnError], a parse that fails does not return. *)
Lemma Parse_ExitOnError f arguments w fs act rest pe w1 r :
  flagsets w !! f = Some fs → errorHandling fs = ExitOnError →
  parseArgs (formal fs) (actual fs) (elems arguments) = (act, rest, pe) →
  pe ≠ parseDone →
  Parse callUsage f arguments w = (w1, r) → ∀ x, r ≠ Return x.
Proof.
  intros Hfs Heh Hpa Hpe. unfold Parse. unfold bind at 1.
  rewrite (derefFlagSet_Some _ _ _ Hfs), Hpa, Heh.
  destruct pe; [done|..]; unfold failf; mred; intros H x ->; mcases.
Qed.


(** ** Registering children *)

(** [AddCmd] for a child with a name. *)
Lemma AddCmd_named c cmd w x y :
  cmds w !! c = Some x → cmds w !! cmd = Some y → Name y ≠ "" →
  AddCmd c cmd w
  = (mkWorld (<[c := mkCmd (Name x) (Description x) (Flags x)
                           (Some (<[Name y := cmd]> (default ∅ (Commands x)))) (Run x)]>
                (cmds w))
             (flagsets w) (stderr w),
     Return tt).
Proof.
  intros Hc Hcmd Hn. pose proof (lookup_lt_Some _ _ _ Hc) as Hlt.
  unfold AddCmd. unfold bind at 1. rewrite (derefCmd_Some _ _ _ Hc).
  destruct (Commands x) as [m|] eqn:Hm.
  - mred. rewrite (derefCmd_Some _ _ _ Hcmd). case_decide; [done|].
    by rewrite (derefCmd_Some _ _ _ Hc).
  - mred. unfold derefCmd. simpl.
    destruct (decide (cmd = c)) as [->|Hne].
    + rewrite list_lookup_insert_eq by done. simpl. simplify_eq.
      case_decide; [done|]. simpl. rewrite list_lookup_insert_eq by done. simpl.
      by rewrite list_insert_insert_eq.
    + rewrite list_lookup_insert_ne by done. rewrite Hcmd. case_decide; [done|].
      simpl. rewrite list_lookup_insert_eq by done. simpl.
      by rewrite list_insert_insert_eq.
Qed.

(** C5: registering a child whose name is empty panics; it neither returns
    normally nor hands back an error. The children map has been made by
    then if the node had none. *)
Theorem AddCmd_nameless_panics c cmd w x y :
  cmds w !! c = Some x → cmds w !! cmd = Some y → Name y = "" →
  AddCmd c cmd w
  = (match Commands x with
     | Some _ => w
     | None =>
         mkWorld (<[c := mkCmd (Name x) (Description x) (Flags x) (Some ∅) (Run x)]> (cmds w))
                 (flagsets w) (stderr w)
     end,
     Panic "cannot add nameless subcommand").
Proof.
  intros Hc Hcmd Hn. pose proof (lookup_lt_Some _ _ _ Hc) as Hlt.
  unfold AddCmd. unfold bind at 1. rewrite (derefCmd_Some _ _ _ Hc).
  destruct (Commands x) as [m|] eqn:Hm.
  - mred. rewrite (derefCmd_Some _ _ _ Hcmd). by case_decide.
  - mred. unfold derefCmd. simpl.
    destruct (decide (cmd = c)) as [->|Hne].
    + rewrite list_lookup_insert_eq by done. simpl. simplify_eq. by case_decide.
    + rewrite list_lookup_insert_ne by done. rewrite Hcmd. by case_decide.
Qed.

(** ** The command listing *)

Lemma sort_Strings_unique l1 l2 : l1 ≡ₚ l2 → sort_Strings l1 = sort_Strings l2.
Proof.
  intros H. unfold sort_Strings.
  apply (Sorted_unique String.le); [apply Sorted_merge_sort, _..|].
  by rewrite !merge_sort_Permutation.
Qed.

Lemma subNames_elem m n : n ∈ subNames m ↔ is_Some (m !! n).
Proof.
  unfold subNames, sort_Strings. rewrite merge_sort_Permutation.
  rewrite list_elem_of_fmap. split.
  - intros ([k p] & -> & H). apply elem_of_map_to_list in H. simpl. eauto.
  - intros [p H]. exists (n, p). split; [done|]. by apply elem_of_map_to_list.
Qed.

Lemma subNames_NoDup m : NoDup (subNames m).
Proof.
  unfold subNames, sort_Strings. rewrite merge_sort_Permutation.
  apply NoDup_fst_map_to_list.
Qed.

Lemma writeRows_valid cs m names :
  (∀ n, n ∈ names → ∃ p, m !! n = Some p ∧ is_Some (cs !! p)) →
  writeRows cs m names = (listingRow cs m <$> names, true).
Proof.
  induction names as [|n names IH]; intros H; simpl; [done|].
  destruct (H n) as (p & Hp & [x Hx]); [by left|].
  unfold listingRow at 1. rewrite Hp. simpl. rewrite Hx. simpl.
  rewrite IH; [done|]. intros n' Hn'. apply H. by right.
Qed.

(** C6: of two registrations under one name the second one stays; the
    command listing has exactly one line for each registered name, in
    lexicographic order of the names, whatever the order of registration
    and the order in which the map is ranged over. *)
Theorem registration_replaces_and_listing_sorted :
  (∀ c a b w x xa xb,
     cmds w !! c = Some x → cmds w !! a = Some xa → cmds w !! b = Some xb →
     Name xa = Name xb → Name xb ≠ "" →
     ∃ w' y, (AddCmd c a;; AddCmd c b) w = (w', Return tt)
             ∧ cmds w' !! c = Some y
             ∧ Commands y = Some (<[Name xb := b]> (default ∅ (Commands x))))
  ∧ (∀ m : gmap string ptr,
       NoDup (subNames m) ∧ StronglySorted String.le (subNames m)
       ∧ ∀ n, n ∈ subNames m ↔ is_Some (m !! n))
  ∧ (∀ (m : gmap string ptr) l, l ≡ₚ (map_to_list m).*1 → sort_Strings l = subNames m)
  ∧ (∀ c w cmd m,
       cmds w !! c = Some cmd → Commands cmd = Some m →
       (∀ n p, m !! n = Some p → is_Some (cmds w !! p)) →
       printSubcommands c w
       = (mkWorld (cmds w) (flagsets w)
                  (stderr w ++ [Text (NL +:+ "Commands" +:+ NL);
                                Table (listingRow (cmds w) m <$> subNames m)]),
          Return tt)).
Proof.
  split; [|split; [|split]].
  - intros c a b w x xa xb Hc Ha Hb Hn Hne.
    pose proof (lookup_lt_Some _ _ _ Hc) as Hlt.
    unfold bind. rewrite (AddCmd_named c a w x xa Hc Ha) by congruence.
    set (x1 := mkCmd (Name x) (Description x) (Flags x)
                     (Some (<[Name xa := a]> (default ∅ (Commands x)))) (Run x)).
    set (w1 := mkWorld (<[c := x1]> (cmds w)) (flagsets w) (stderr w)).
    assert (cmds w1 !! c = Some x1) as Hc1 by (by apply list_lookup_insert_eq).
    assert (∃ xb1, cmds w1 !! b = Some xb1 ∧ Name xb1 = Name xb) as (xb1 & Hb1 & Hnb).
    { destruct (decide (b = c)) as [->|Hbc].
      - exists x1. split; [done|]. simpl. congruence.
      - exists xb. split; [|done]. simpl. by rewrite list_lookup_insert_ne. }
    rewrite (AddCmd_named c b w1 x1 xb1 Hc1 Hb1) by congruence.
    eexists _, _. split; [done|]. split.
    + simpl. apply list_lookup_insert_eq. by rewrite length_insert.
    + simpl. rewrite Hnb, Hn. by rewrite insert_insert_eq.
  - intros m. split; [apply subNames_NoDup|]. split; [|apply subNames_elem].
    apply StronglySorted_merge_sort; apply _.
  - intros m l H. by apply sort_Strings_unique.
  - intros c w cmd m Hc Hm Hvalid.
    unfold printSubcommands. unfold bind at 1. rewrite (derefCmd_Some _ _ _ Hc), Hm.
    mred. rewrite writeRows_valid.
    + by rewrite <- app_assoc.
    + intros n [p Hp]%subNames_elem. eauto.
Qed.

(** ** The help action *)

Lemma helpRun_no_such_command parent c args w p m name rest :
  cmds w !! parent = Some p → Commands p = Some m →
  elems args = name :: rest → m !! name = None →
  helpRun parent c args w
  = (w, Return (Some (errorString ("no such command: " +:+ strconv_Quote name)))).
Proof.
  intros Hp Hm Hargs Hno. unfold helpRun. rewrite Hargs. unfold bind at 1.
  unfold bind at 1. rewrite (derefCmd_Some _ _ _ Hp), Hm. unfold ret. by rewrite Hno.
Qed.

(** C7: when the parent has children and the first argument names none of
    them, the help action fails with "no such command" and the quoted
    name; dispatch reports it as an action error: the message follows the
    prefix "error: " and the exit status is 1. *)
Theorem help_unknown_command c args w w0 f fs cmd act parent p m name rest :
  ExecArgs_flags c w = (w0, Return f) →
  flagsets w0 !! f = Some fs → cmds w0 !! c = Some cmd →
  parseArgs (formal fs) (actual fs) (elems args) = (act, name :: rest, parseDone) →
  (∀ m', Commands cmd = Some m' → m' !! name = None) →
  Run cmd = Some (helpRunOf parent) →
  cmds w0 !! parent = Some p → Commands p = Some m → m !! name = None →
  let w1 := parsedWorld w0 f (parsedSet fs act (mk_slice (name :: rest))) in
  helpRun parent c (mk_slice (name :: rest)) w1
  = (w1, Return (Some (errorString ("no such command: " +:+ strconv_Quote name))))
  ∧ ExecArgs c args w
    = Some (mkWorld (cmds w1) (flagsets w1)
                    (stderr w1 ++ [Text ("error: no such command: " +:+ strconv_Quote name
                                         +:+ NL)]),
            Exit 1%Z).
Proof.
  intros Hfl Hf Hc Hpa Hno Hr Hp Hm Hname w1.
  assert (restSlice args (name :: rest) = mk_slice (name :: rest)) as Hrs.
  { destruct args; [|done]. simpl in Hpa. by simplify_eq. }
  assert (helpRun parent c (mk_slice (name :: rest)) w1
          = (w1, Return (Some (errorString ("no such command: " +:+ strconv_Quote name)))))
    as Hhelp by (by eapply helpRun_no_such_command).
  split; [done|].
  pose proof (ExecArgs_parse_done _ _ _ _ _ _ _ _ Hfl Hf Hpa) as Hparse.
  rewrite Hrs in Hparse.
  rewrite (ExecArgs_run c args w w1 f cmd (parsedSet fs act (mk_slice (name :: rest)))
             (helpRunOf parent) Hparse Hc (parsedWorld_flagset _ _ _ _ Hf)); [| |done].
  - unfold invoke, bind. simpl callRun. unfold Args. simpl fs_args. by rewrite Hhelp.
  - apply matchSub_None. intros m' Hm'. unfold Arg. simpl. by apply Hno.
Qed.



(** ** Mutation after setup *)

Lemma extends_nodes_kept w w' : extends w w' → nodes_kept w w'.
Proof.
  intros [L C F N]. split; [done|]. intros a x Hx.
  destruct (C a x Hx) as (y & Hy & [H1 H2 H3 H4 H5]). exists y.
  repeat (split; [done|]). unfold flags_frame in H5.
  destruct (Flags x); [done|]. destruct H5 as [?|(f & ? & ? & _)]; eauto.
Qed.

(** C9 (as amended): dispatch and help rendering add no node and leave the
    name, description, children and action of every node as they were; the
    only field they write is a nil [Flags], which they set to a flag set
    made on the spot. *)
Theorem dispatch_writes_only_nil_flags :
  (∀ c args w w' r, ExecArgs c args w = Some (w', r) → nodes_kept w w')
  ∧ (∀ parent c args w w' r, helpRun parent c args w = (w', r) → nodes_kept w w')
  ∧ (∀ c w w' r, newUsage c w = (w', r) → nodes_kept w w').
Proof.
  split; [|split].
  - intros c args w w' r H. by eapply extends_nodes_kept, extends_ExecArgs.
  - intros parent c args w w' r H. by eapply extends_nodes_kept, preserves_helpRun.
  - intros c w w' r H. by eapply extends_nodes_kept, preserves_newUsage.
Qed.

(** ** The error policy of the package's flag sets *)

(** [New], run to its end. *)
Lemma New_spec name run w :
  New name run w
  = (mkWorld
       (cmds w
        ++ [mkCmd name "" (Some (length (flagsets w)))
                  (Some {["help" := S (length (cmds w))]}) run;
            mkCmd "help" ("Print the help message for " +:+ name +:+ " or a subcommand")
                  None None (Some (helpRunOf (length (cmds w))))])
       (flagsets w
        ++ [mkFlagSet (Some (newUsageOf (length (cmds w)))) name false ∅ ∅ nil_slice
                      ExitOnError])
       (stderr w),
     Return (length (cmds w))).
Proof.
  unfold New, NewFlagSet, newHelpCmd, AddCmd. mred.
  unfold derefFlagSet, derefCmd. simpl.
  rewrite (lookup_app_r (flagsets w)) by lia. rewrite Nat.sub_diag. simpl.
  rewrite (lookup_app_r (cmds w)) by lia. rewrite Nat.sub_diag. simpl.
  rewrite (lookup_app_l (_ ++ _)) by (rewrite !length_app; simpl; lia).
  rewrite (lookup_app_r (cmds w)) by lia. rewrite Nat.sub_diag. simpl.
  rewrite !length_app. simpl. rewrite Nat.add_1_r.
  rewrite (list_lookup_insert_ne _ (length (cmds w)) (S (length (cmds w)))) by lia.
  rewrite (lookup_app_r (_ ++ _)) by (rewrite !length_app; simpl; lia).
  rewrite !length_app. simpl. rewrite Nat.add_1_r, Nat.sub_diag. simpl.
  rewrite list_lookup_insert_eq by (rewrite !length_app; simpl; lia). simpl.
  rewrite list_insert_insert_eq.
  rewrite (insert_app_r_alt (flagsets w)) by lia. rewrite Nat.sub_diag. simpl.
  rewrite (insert_app_l (_ ++ _)) by (rewrite !length_app; simpl; lia).
  rewrite (insert_app_r_alt (cmds w)) by lia. rewrite Nat.sub_diag. simpl.
  by rewrite <- app_assoc.
Qed.

(** C10: the flag set [New] makes and every flag set that comes into being
    during a dispatch or a usage rendering has the policy [ExitOnError];
    under that policy a parse that fails never returns to [ExecArgs], so the
    branch that prints "error parsing arguments: <detail>" and exits with
    status 2 is not reached. *)
Theorem package_flag_sets_exit_on_error :
  (∀ name run w w' c,
     New name run w = (w', Return c) →
     ∃ cmd f fs, cmds w' !! c = Some cmd ∧ Flags cmd = Some f
                 ∧ flagsets w !! f = None ∧ flagsets w' !! f = Some fs
                 ∧ errorHandling fs = ExitOnError)
  ∧ (∀ c args w w' r f fs,
       ExecArgs c args w = Some (w', r) →
       flagsets w !! f = None → flagsets w' !! f = Some fs →
       errorHandling fs = ExitOnError)
  ∧ (∀ c w w' r f fs,
       newUsage c w = (w', r) →
       flagsets w !! f = None → flagsets w' !! f = Some fs →
       errorHandling fs = ExitOnError)
  ∧ (∀ f fs arguments w act rest pe w1 r,
       flagsets w !! f = Some fs → errorHandling fs = ExitOnError →
       parseArgs (formal fs) (actual fs) (elems arguments) = (act, rest, pe) →
       pe ≠ parseDone →
       Parse callUsage f arguments w = (w1, r) → ∀ x, r ≠ Return x)
  ∧ (∀ c args w w0 f fs w1 e,
       ExecArgs_flags c w = (w0, Return f) →
       flagsets w0 !! f = Some fs → errorHandling fs = ExitOnError →
       Parse callUsage f args w0 ≠ (w1, Return (Some e))).
Proof.
  split; [|split; [|split; [|split]]].
  - intros name run w w' c. rewrite New_spec. intros H. simplify_eq.
    eexists _, (length (flagsets w)), _. simpl. split_and!.
    + rewrite lookup_app_r by lia. by rewrite Nat.sub_diag.
    + done.
    + apply lookup_ge_None. lia.
    + rewrite lookup_app_r by lia. by rewrite Nat.sub_diag.
    + done.
  - intros c args w w' r f fs H. apply extends_ExecArgs in H. by apply (ext_new _ _ H).
  - intros c w w' r f fs H. apply preserves_newUsage in H. by apply (ext_new _ _ H).
  - intros f fs arguments w act rest pe w1 r. apply Parse_ExitOnError.
  - intros c args w w0 f fs w1 e _ Hfs Heh Hp.
    apply Parse_error_policy in Hp as (fs' & ? & ?). congruence.
Qed.

Lemma check_flags_valid w : check_flags w = true → valid_flags w.
Proof.
  unfold check_flags. rewrite forallb_forall. intros H c cmd f Hc Hf.
  specialize (H cmd). rewrite Hf in H. apply lookup_lt_is_Some.
  eapply bool_decide_eq_true, H, list_elem_of_In, list_elem_of_lookup_2, Hc.
Qed.

(** ** Activations without flags *)

Lemma restSlice_elems args : restSlice args (elems args) = args.
Proof. by destruct args. Qed.

Lemma parseArgs_startsPositional fm act args :
  startsPositional args → parseArgs fm act (elems args) = (act, elems args, parseDone).
Proof.
  unfold startsPositional. destruct (elems args) as [|s l]; [done|].
  apply parseArgs_positional.
Qed.

(** The first part of an activation, on arguments that start with a
    positional one: the node has a flag set afterwards, that flag set holds
    all the arguments, and nothing was written. *)
Lemma ExecArgs_parse_quiet c args w cmd :
  cmds w !! c = Some cmd → flags_ok w cmd → startsPositional args →
  ∃ w1 f fs1 cmd1,
    ExecArgs_parse c args w = (w1, Return f)
    ∧ extends w w1 ∧ stderr w1 = stderr w
    ∧ cmds w1 !! c = Some cmd1 ∧ cmd_frame w w1 cmd cmd1 ∧ Flags cmd1 = Some f
    ∧ flagsets w1 !! f = Some fs1 ∧ fs_args fs1 = args
    ∧ (Flags cmd = None →
       Usage fs1 = Some (defaultUsageOf f) ∧ fs_name fs1 = os_Args0 ∧ formal fs1 = ∅).
Proof.
  intros Hc Hok Hpos.
  assert (∃ w0 f fs cmd0,
            ExecArgs_flags c w = (w0, Return f) ∧ flagsets w0 !! f = Some fs
            ∧ cmds w0 !! c = Some cmd0 ∧ Flags cmd0 = Some f ∧ stderr w0 = stderr w
            ∧ (Flags cmd = None →
               Usage fs = Some (defaultUsageOf f) ∧ fs_name fs = os_Args0 ∧ formal fs = ∅))
    as (w0 & f & fs & cmd0 & Hfl & Hfs & Hc0 & Hf0 & Hst & Hnew).
  { pose proof (lookup_lt_Some _ _ _ Hc) as Hlt.
    unfold ExecArgs_flags, bind. rewrite (derefCmd_Some _ _ _ Hc).
    destruct (Flags cmd) as [f|] eqn:Hf.
    - destruct (Hok f Hf) as [fs Hfs]. by exists w, f, fs, cmd.
    - unfold NewFlagSet. mred. eexists _, _, _, _. split; [done|]. simpl.
      rewrite lookup_app_r by lia. rewrite Nat.sub_diag.
      rewrite list_lookup_insert_eq by done. done. }
  pose proof (preserves_ExecArgs_flags _ _ _ _ Hfl) as Hext.
  pose proof (ExecArgs_parse_done c args w w0 f fs _ _ Hfl Hfs
                (parseArgs_startsPositional _ _ _ Hpos)) as Hp.
  rewrite restSlice_elems in Hp.
  set (fs1 := parsedSet fs (actual fs) args) in *.
  assert (extends w (parsedWorld w0 f fs1)) as Hext1.
  { eapply extends_trans; [done|]. eapply extends_storeFlagSet; [done|by split]. }
  destruct (ext_cmds _ _ Hext1 c cmd Hc) as (cmd1 & Hc1 & Hfr).
  exists (parsedWorld w0 f fs1), f, fs1, cmd1. split_and!; try done.
  - simpl in Hc1. congruence.
  - by eapply parsedWorld_flagset.
Qed.

Lemma ExecArgs_step_quiet c args w cmd :
  cmds w !! c = Some cmd → flags_ok w cmd → startsPositional args →
  ∃ w1 f fs1 cmd1,
    ExecArgs_step c args w = ExecArgs_route c f w1
    ∧ extends w w1 ∧ stderr w1 = stderr w
    ∧ cmds w1 !! c = Some cmd1 ∧ cmd_frame w w1 cmd cmd1 ∧ Flags cmd1 = Some f
    ∧ flagsets w1 !! f = Some fs1 ∧ fs_args fs1 = args
    ∧ (Flags cmd = None →
       Usage fs1 = Some (defaultUsageOf f) ∧ fs_name fs1 = os_Args0 ∧ formal fs1 = ∅).
Proof.
  intros Hc Hok Hpos.
  destruct (ExecArgs_parse_quiet c args w cmd Hc Hok Hpos)
    as (w1 & f & fs1 & cmd1 & Hp & H).
  exists w1, f, fs1, cmd1. split; [|done]. by apply ExecArgs_step_route.
Qed.

Lemma flags_ok_extends w w' x y :
  extends w w' → cmd_frame w w' x y → flags_ok w x → flags_ok w' y.
Proof.
  intros Hext [_ _ _ _ Hfl] Hok f Hf. unfold flags_frame in Hfl.
  destruct (Flags x) as [g|] eqn:Hg.
  - assert (f = g) as -> by congruence. destruct (Hok g Hg) as [z Hz].
    destruct (ext_flagsets _ _ Hext g z Hz) as (? & ? & _). eauto.
  - destruct Hfl as [?|(g & ? & _ & ?)]; by simplify_eq.
Qed.

Lemma children_ok_extends w w' x y :
  extends w w' → cmd_frame w w' x y → children_ok w x → children_ok w' y.
Proof.
  intros Hext [_ _ HC _ _] Hok m n p Hm Hp. rewrite HC in Hm.
  destruct (Hok m n p Hm Hp) as [z Hz].
  destruct (ext_cmds _ _ Hext p z Hz) as (? & ? & _). eauto.
Qed.

(** One level down, on arguments without flags before the name. *)
Lemma ExecArgs_descend_quiet c tok rest w cmd m sub :
  cmds w !! c = Some cmd → flags_ok w cmd → Commands cmd = Some m →
  m !! tok = Some sub → tok ≠ "" → readToken tok = Positional →
  ∃ w1,
    ExecArgs c (mk_slice (tok :: rest)) w
    = ExecArgs sub (match rest with [] => nil_slice | _ => mk_slice rest end) w1
    ∧ extends w w1 ∧ stderr w1 = stderr w.
Proof.
  intros Hc Hok Hm Hs Ht Hr.
  destruct (ExecArgs_step_quiet c (mk_slice (tok :: rest)) w cmd Hc Hok Hr)
    as (w1 & f & fs1 & cmd1 & Hstep & Hext & Hst & Hc1 & [_ _ HC _ _] & _ & Hfs1 & Hargs & _).
  exists w1. split; [|done].
  rewrite ExecArgs_unfold, Hstep.
  rewrite (ExecArgs_route_sub c f w1 cmd1 fs1 sub Hc1 Hfs1).
  - unfold Args. rewrite Hargs. simpl. by destruct rest.
  - unfold matchSub, Arg. rewrite HC, Hm, Hargs. simpl. by case_decide.
Qed.

(** ** What the renderers write *)

Lemma written_nil w : written w [] = w.
Proof. destruct w. unfold written. simpl. by rewrite app_nil_r. Qed.

Lemma written_app w a b : written (written w a) b = written w (a ++ b).
Proof. unfold written. simpl. by rewrite app_assoc. Qed.

Lemma printSubcommands_text c w cmd :
  cmds w !! c = Some cmd → children_ok w cmd →
  printSubcommands c w = (written w (listingText (cmds w) cmd), Return tt).
Proof.
  intros Hc Hok. unfold printSubcommands, listingText. unfold bind at 1.
  rewrite (derefCmd_Some _ _ _ Hc). destruct (Commands cmd) as [m|] eqn:Hm.
  - mred. rewrite writeRows_valid.
    + unfold written. simpl. by rewrite <- app_assoc.
    + intros n [p Hp]%subNames_elem. eauto.
  - unfold ret. by rewrite written_nil.
Qed.

Lemma newUsage_text c w cmd f fs :
  cmds w !! c = Some cmd → Flags cmd = Some f → flagsets w !! f = Some fs →
  children_ok w cmd →
  newUsage c w = (written w (usageText (cmds w) cmd (formal fs)), Return tt).
Proof.
  intros Hc Hf Hfs Hok. unfold newUsage. unfold bind at 1.
  rewrite (derefCmd_Some _ _ _ Hc), Hf. unfold bind at 1. unfold ret at 1.
  unfold bind at 1. unfold Fprint at 1, emit at 1. unfold bind at 1.
  change (mkWorld (cmds w) (flagsets w) (stderr w ++ ?x)) with (written w x).
  rewrite (printSubcommands_text c (written w _) cmd Hc Hok).
  unfold PrintDefaults. mred. unfold derefFlagSet. simpl. rewrite Hfs.
  unfold written, usageText. simpl. by rewrite <- !app_assoc.
Qed.

Lemma listingText_extends w w' x y :
  extends w w' → cmd_frame w w' x y → children_ok w x →
  listingText (cmds w') y = listingText (cmds w) x.
Proof.
  intros Hext [_ _ HC _ _] Hok. unfold listingText. rewrite HC.
  destruct (Commands x) as [m|] eqn:Hm; [|done]. do 3 f_equal.
  apply Forall_fmap_ext, Forall_forall. intros n [p Hp]%subNames_elem.
  unfold listingRow. rewrite Hp. simpl.
  destruct (Hok m n p Hm Hp) as [z Hz].
  destruct (ext_cmds _ _ Hext p z Hz) as (z' & Hz' & [_ HD _ _ _]).
  rewrite Hz, Hz'. simpl. by rewrite HD.
Qed.

Lemma usageNode_extends w w' c cmd f fs :
  extends w w' → usageNode w c cmd f fs →
  ∃ cmd' fs',
    usageNode w' c cmd' f fs' ∧ cmd_frame w w' cmd cmd'
    ∧ usageText (cmds w') cmd' (formal fs') = usageText (cmds w) cmd (formal fs).
Proof.
  intros Hext (Hc & Hf & Hfs & Hu & Hok).
  destruct (ext_cmds _ _ Hext c cmd Hc) as (cmd' & Hc' & Hfr).
  destruct (ext_flagsets _ _ Hext f fs Hfs) as (fs' & Hfs' & [HU _ HF _]).
  exists cmd', fs'. split; [|split; [done|]].
  - split_and!; try done.
    + pose proof (frame_Flags _ _ _ _ Hfr) as H. unfold flags_frame in H.
      by rewrite Hf in H.
    + congruence.
    + by eapply children_ok_extends.
  - unfold usageText. rewrite (listingText_extends w w' cmd cmd') by done.
    by rewrite HF, (frame_Name _ _ _ _ Hfr), (frame_Description _ _ _ _ Hfr).
Qed.

Lemma helpNode_extends w w' h parent : extends w w' → helpNode w h parent → helpNode w' h parent.
Proof.
  intros Hext (hc & Hh & Hok & HC & HR).
  destruct (ext_cmds _ _ Hext h hc Hh) as (hc' & Hh' & Hfr).
  exists hc'. split_and!; [done|by eapply flags_ok_extends| |].
  - by rewrite (frame_Commands _ _ _ _ Hfr).
  - by rewrite (frame_Run _ _ _ _ Hfr).
Qed.

Lemma Usage_call_newUsage f w fs c :
  flagsets w !! f = Some fs → Usage fs = Some (newUsageOf c) →
  Usage_call callUsage f w = newUsage c w.
Proof.
  intros Hfs Hu. unfold Usage_call, bind. by rewrite (derefFlagSet_Some _ _ _ Hfs), Hu.
Qed.

Lemma helpRun_text parent c args w q qc :
  helpTarget w parent args q →
  cmds w !! q = Some qc → children_ok w qc →
  (∀ f, Flags qc = Some f →
        ∃ fs, flagsets w !! f = Some fs ∧ Usage fs = Some (newUsageOf q)) →
  helpRun parent c args w = (written w (helpText w qc), Return None).
Proof.
  intros Ht Hq Hok Hfl. unfold helpRun.
  assert (match elems args with
          | [] => ret (Some parent)
          | a0 :: _ =>
              let* p := derefCmd parent in
              match Commands p with
              | None => ret (Some parent)
              | Some m => ret (m !! a0)
              end
          end w = (w, Return (Some q))) as Hpp.
  { unfold helpTarget in Ht. destruct (elems args) as [|a0 l]; [by subst|].
    destruct Ht as (p & Hp & Ht). unfold bind. rewrite (derefCmd_Some _ _ _ Hp).
    destruct (Commands p); unfold ret; [by rewrite Ht|by subst]. }
  unfold bind at 1. rewrite Hpp. unfold bind at 1. unfold bind at 1.
  rewrite (derefCmd_Some _ _ _ Hq). unfold helpText.
  destruct (Flags qc) as [f|] eqn:Hf.
  - destruct (Hfl f eq_refl) as (fs & Hfs & Hu).
    rewrite (Usage_call_newUsage f w fs q Hfs Hu).
    rewrite (newUsage_text q w qc f fs Hq Hf Hfs Hok). unfold ret. by rewrite Hfs.
  - unfold bind at 1. unfold Fprint at 1, emit at 1.
    change (mkWorld (cmds w) (flagsets w) (stderr w ++ ?x)) with (written w x).
    rewrite (printSubcommands_text q (written w _) qc Hq Hok).
    unfold ret. by rewrite written_app.
Qed.

Lemma helpTarget_extends w w' parent args q :
  extends w w' → helpTarget w parent args q → helpTarget w' parent args q.
Proof.
  intros Hext. unfold helpTarget. destruct (elems args) as [|a0 l]; [done|].
  intros (p & Hp & H). destruct (ext_cmds _ _ Hext parent p Hp) as (p' & Hp' & Hfr).
  exists p'. split; [done|]. by rewrite (frame_Commands _ _ _ _ Hfr).
Qed.

Lemma extends_written w w' out : extends w w' → extends w (written w' out).
Proof. intros H. eapply extends_trans; [done|]. by apply extends_same. Qed.

(** The activation of a help command whose target is a node with its own
    usage closure: the usage text of the target, and a normal return. *)
Lemma ExecArgs_help_node h parent args w q qc f fs :
  helpNode w h parent → startsPositional args →
  helpTarget w parent args q → usageNode w q qc f fs →
  ∃ w', ExecArgs h args w = Some (w', Return tt)
        ∧ stderr w' = stderr w ++ usageText (cmds w) qc (formal fs)
        ∧ extends w w'.
Proof.
  intros (hc & Hh & Hok & HC & HR) Hpos Ht Hq.
  destruct (ExecArgs_parse_quiet h args w hc Hh Hok Hpos)
    as (w1 & f1 & fs1 & hc1 & Hp & Hext & Hst & Hh1 & Hfr & _ & Hfs1 & Hargs & _).
  destruct (usageNode_extends w w1 q qc f fs Hext Hq)
    as (qc1 & fs' & (Hq1 & Hf1 & Hfs' & Hu1 & Hok1) & _ & Htext).
  assert (helpRun parent h args w1
          = (written w1 (usageText (cmds w1) qc1 (formal fs')), Return None)) as Hrun.
  { rewrite (helpRun_text parent h args w1 q qc1); [|by eapply helpTarget_extends|done..|].
    - unfold helpText. by rewrite Hf1, Hfs'.
    - intros g Hg. assert (g = f) as -> by congruence. eauto. }
  exists (written w1 (usageText (cmds w1) qc1 (formal fs'))). split_and!.
  - rewrite (ExecArgs_run h args w w1 f1 hc1 fs1 (helpRunOf parent) Hp Hh1 Hfs1).
    + unfold invoke, bind, Args. simpl callRun. by rewrite Hargs, Hrun.
    + unfold matchSub. by rewrite (frame_Commands _ _ _ _ Hfr), HC.
    + by rewrite (frame_Run _ _ _ _ Hfr).
  - simpl. by rewrite Hst, Htext.
  - by apply extends_written.
Qed.

(** A routing miss on a node with its own usage closure: the usage text,
    then exit status 1. *)
Lemma ExecArgs_usage_exit c args w cmd f fs :
  usageNode w c cmd f fs → Run cmd = None → startsPositional args →
  (∀ m tok, Commands cmd = Some m → head (elems args) = Some tok → m !! tok = None) →
  ∃ w', ExecArgs c args w = Some (w', Exit 1%Z)
        ∧ stderr w' = stderr w ++ usageText (cmds w) cmd (formal fs).
Proof.
  intros Hn HR Hpos Hno. pose proof Hn as (Hc & Hf & Hfs & Hu & Hok).
  assert (flags_ok w cmd) as Hfok.
  { intros g Hg. assert (g = f) as -> by congruence. eauto. }
  destruct (ExecArgs_step_quiet c args w cmd Hc Hfok Hpos)
    as (w1 & f1 & fs1 & cmd1 & Hstep & Hext & Hst & Hc1 & Hfr & Hf1 & Hfs1 & Hargs & _).
  destruct (usageNode_extends w w1 c cmd f fs Hext Hn)
    as (cmd1' & fs' & (Hq1 & Hf1' & Hfs' & Hu1 & Hok1) & _ & Htext).
  assert (cmd1' = cmd1) as -> by congruence.
  assert (f1 = f) as -> by congruence.
  assert (fs' = fs1) as -> by congruence.
  exists (written w1 (usageText (cmds w1) cmd1 (formal fs1))). split.
  - rewrite ExecArgs_unfold, Hstep.
    rewrite (ExecArgs_route_usage c f w1 cmd1 fs1 Hc1 Hfs1).
    + unfold bind. rewrite (Usage_call_newUsage f w1 fs1 c Hfs1 Hu1).
      by rewrite (newUsage_text c w1 cmd1 f fs1 Hc1 Hf1 Hfs1 Hok1).
    + unfold matchSub, Arg. rewrite (frame_Commands _ _ _ _ Hfr), Hargs.
      destruct (Commands cmd) as [m|] eqn:Hm; [|done]. case_decide as Ha; [done|].
      destruct (elems args) as [|tok l] eqn:He; [done|]. by eapply Hno.
    + by rewrite (frame_Run _ _ _ _ Hfr).
  - simpl. by rewrite Hst, Htext.
Qed.

(** ** More of the help action *)

(** X13: the help action looks at its first argument only: for a registered
    child it writes that child's help text (the full usage when the child
    has the flag set [New] gave it, without the "Flags" part when it has
    none) and returns nil, whatever follows the first argument. *)
Theorem help_renders_named_child parent c a0 rest w p m sub sc :
  cmds w !! parent = Some p → Commands p = Some m → m !! a0 = Some sub →
  cmds w !! sub = Some sc → children_ok w sc →
  (∀ f, Flags sc = Some f →
        ∃ fs, flagsets w !! f = Some fs ∧ Usage fs = Some (newUsageOf sub)) →
  helpRun parent c (mk_slice (a0 :: rest)) w = (written w (helpText w sc), Return None)
  ∧ helpRun parent c (mk_slice (a0 :: rest)) w = helpRun parent c (mk_slice [a0]) w.
Proof.
  intros Hp Hm Ha Hs Hok Hfl.
  assert (∀ l, helpRun parent c (mk_slice (a0 :: l)) w
               = (written w (helpText w sc), Return None)) as H.
  { intros l. apply (helpRun_text parent c _ w sub sc); try done.
    unfold helpTarget. simpl. exists p. by rewrite Hm. }
  by rewrite !H.
Qed.

(** X14: [printSubcommands] leaves the error stream as it was exactly when
    the node's [Commands] is nil; a map that is there but empty still gets
    the "Commands" header. *)
Theorem printSubcommands_silent_iff_nil c w cmd :
  cmds w !! c = Some cmd →
  (stderr (fst (printSubcommands c w)) = stderr w ↔ Commands cmd = None)
  ∧ (Commands cmd = Some ∅ →
     printSubcommands c w
     = (written w [Text (NL +:+ "Commands" +:+ NL); Table []], Return tt)).
Proof.
  intros Hc. split; [split|].
  - unfold printSubcommands. unfold bind at 1. rewrite (derefCmd_Some _ _ _ Hc).
    destruct (Commands cmd) as [m|]; [|done]. intros H. exfalso.
    unfold bind at 1 in H. unfold Fprint, emit in H.
    destruct (writeRows _ _ _) as [lines ok] in H. mred.
    apply (f_equal length) in H. destruct ok; simpl in H; rewrite !length_app in H;
      simpl in H; lia.
  - intros Hm. unfold printSubcommands. unfold bind at 1.
    by rewrite (derefCmd_Some _ _ _ Hc), Hm.
  - intros Hm. rewrite (printSubcommands_text c w cmd Hc).
    + unfold listingText. by rewrite Hm.
    + intros m n p Hm' Hp. rewrite Hm in Hm'. by simplify_eq.
Qed.

(** ** More of dispatch *)

(** X6: a node that has neither a flag set nor an action (a [Cmd] literal)
    gets, on a routing miss, the flag package's default usage under the
    name of the program, not the node's own usage text: "Usage of
    <os.Args[0]>:" and the defaults of an empty flag set, then exit status 1. *)
Theorem literal_node_default_usage c args w cmd :
  cmds w !! c = Some cmd → Flags cmd = None → Run cmd = None →
  startsPositional args →
  (∀ m tok, Commands cmd = Some m → head (elems args) = Some tok → m !! tok = None) →
  ∃ w', ExecArgs c args w = Some (w', Exit 1%Z)
        ∧ stderr w'
          = stderr w
            ++ [Text (if decide (os_Args0 = "") then "Usage:" +:+ NL
                      else "Usage of " +:+ os_Args0 +:+ ":" +:+ NL);
                Defaults ∅].
Proof.
  intros Hc Hf HR Hpos Hno.
  assert (flags_ok w cmd) as Hfok by (intros g Hg; congruence).
  destruct (ExecArgs_step_quiet c args w cmd Hc Hfok Hpos)
    as (w1 & f1 & fs1 & cmd1 & Hstep & Hext & Hst & Hc1 & Hfr & Hf1 & Hfs1 & Hargs & Hnew).
  destruct (Hnew Hf) as (Hu & Hname & Hformal).
  exists (written w1 [Text (if decide (os_Args0 = "") then "Usage:" +:+ NL
                           else "Usage of " +:+ os_Args0 +:+ ":" +:+ NL);
                     Defaults ∅]).
  split.
  - rewrite ExecArgs_unfold, Hstep.
    rewrite (ExecArgs_route_usage c f1 w1 cmd1 fs1 Hc1 Hfs1).
    + unfold bind at 1. unfold Usage_call. unfold bind at 1.
      rewrite (derefFlagSet_Some _ _ _ Hfs1), Hu. simpl callUsage.
      unfold defaultUsage. unfold bind at 1. rewrite (derefFlagSet_Some _ _ _ Hfs1).
      rewrite Hname. unfold PrintDefaults, written.
      case_decide; mred; unfold derefFlagSet; simpl; rewrite Hfs1; simpl;
        rewrite Hformal; by rewrite <- app_assoc.
    + unfold matchSub, Arg. rewrite (frame_Commands _ _ _ _ Hfr), Hargs.
      destruct (Commands cmd) as [m|] eqn:Hm; [|done]. case_decide as Ha; [done|].
      destruct (elems args) as [|tok l] eqn:He; [done|]. by eapply Hno.
    + by rewrite (frame_Run _ _ _ _ Hfr).
  - simpl. by rewrite Hst.
Qed.

(** X4: when dispatch reaches a caller's action, the action receives the
    arguments as they are, and its result decides the outcome: nil lets
    [ExecArgs] return with nothing written; an error is written after
    "error: " and the process exits with status 1. *)
Theorem action_result_decides_outcome c args w cmd id :
  cmds w !! c = Some cmd → flags_ok w cmd → Run cmd = Some (userRun id) →
  startsPositional args →
  (∀ m tok, Commands cmd = Some m → head (elems args) = Some tok → m !! tok = None) →
  ∃ w1,
    extends w w1 ∧ stderr w1 = stderr w
    ∧ ExecArgs c args w
      = Some (match actions id w1 c args with
              | None => (w1, Return tt)
              | Some e => (written w1 [Text ("error: " +:+ Error e +:+ NL)], Exit 1%Z)
              end).
Proof.
  intros Hc Hfok HR Hpos Hno.
  destruct (ExecArgs_parse_quiet c args w cmd Hc Hfok Hpos)
    as (w1 & f1 & fs1 & cmd1 & Hp & Hext & Hst & Hc1 & Hfr & Hf1 & Hfs1 & Hargs & _).
  exists w1. split; [done|]. split; [done|].
  rewrite (ExecArgs_run c args w w1 f1 cmd1 fs1 (userRun id) Hp Hc1 Hfs1).
  - unfold invoke, bind, Args. simpl callRun. rewrite Hargs.
    by destruct (actions id w1 c args).
  - unfold matchSub, Arg. rewrite (frame_Commands _ _ _ _ Hfr), Hargs.
    destruct (Commands cmd) as [m|] eqn:Hm; [|done]. case_decide as Ha; [done|].
    destruct (elems args) as [|tok l] eqn:He; [done|]. by eapply Hno.
  - by rewrite (frame_Run _ _ _ _ Hfr).
Qed.

(** ** The constructor *)

Lemma New_world name run w w' c :
  New name run w = (w', Return c) →
  c = length (cmds w)
  ∧ cmds w' = cmds w ++ [newRoot name run w; newHelp name w]
  ∧ flagsets w' = flagsets w ++ [newFlags name w]
  ∧ stderr w' = stderr w.
Proof. rewrite New_spec. intros H. by simplify_eq. Qed.

Lemma subNames_singleton (k : string) (p : ptr) : subNames {[k := p]} = [k].
Proof. unfold subNames. by rewrite map_to_list_singleton. Qed.

Lemma New_nodes name run w w' c :
  New name run w = (w', Return c) →
  usageNode w' c (newRoot name run w) (length (flagsets w)) (newFlags name w)
  ∧ helpNode w' (S c) c
  ∧ usageText (cmds w') (newRoot name run w) (formal (newFlags name w)) = newUsageText name.
Proof.
  intros (-> & Hc & Hf & Hs)%New_world.
  assert (cmds w' !! length (cmds w) = Some (newRoot name run w)) as Hroot.
  { rewrite Hc, lookup_app_r by lia. by rewrite Nat.sub_diag. }
  assert (cmds w' !! S (length (cmds w)) = Some (newHelp name w)) as Hhelp.
  { rewrite Hc, lookup_app_r by lia.
    by replace (S (length (cmds w)) - length (cmds w)) with 1 by lia. }
  split_and!.
  - split_and!; try done.
    + rewrite Hf, lookup_app_r by lia. by rewrite Nat.sub_diag.
    + intros m n p Hm Hp. simpl in Hm. simplify_eq.
      apply lookup_singleton_Some in Hp as [_ <-]. eauto.
  - exists (newHelp name w). split_and!; done.
  - unfold usageText, listingText, newUsageText. simpl.
    rewrite subNames_singleton. simpl. unfold listingRow.
    rewrite lookup_singleton_eq. simpl. by rewrite Hhelp.
Qed.

(** X8: [New] always succeeds, for the empty name too. It adds two nodes and
    one flag set and touches nothing else: the new node has the given name
    and action, an empty description, the one child "help", and a flag
    set that exits on error and whose [Usage] is the node's own usage
    closure; the help command has no flag set and no children. *)
Theorem New_postcondition name run w :
  ∃ w', New name run w = (w', Return (length (cmds w)))
        ∧ cmds w' = cmds w ++ [newRoot name run w; newHelp name w]
        ∧ flagsets w' = flagsets w ++ [newFlags name w]
        ∧ stderr w' = stderr w.
Proof.
  destruct (New name run w) as [w' r] eqn:H. pose proof H as H'.
  rewrite New_spec in H'. simplify_eq. eexists. split; [done|].
  by destruct (New_world _ _ _ _ _ H) as (_ & ? & ? & ?).
Qed.

(** X9: on a node fresh from [New], dispatching "help" writes the usage text
    of that node (first line, the listing with the one child "help", the
    flags) and returns normally. *)
Theorem New_then_help name run w w' c :
  New name run w = (w', Return c) →
  ∃ w'', ExecArgs c (mk_slice ["help"]) w' = Some (w'', Return tt)
         ∧ stderr w'' = stderr w ++ newUsageText name.
Proof.
  intros HNew. destruct (New_nodes _ _ _ _ _ HNew) as (Hn & Hh & Htext).
  destruct (New_world _ _ _ _ _ HNew) as (-> & _ & _ & Hst).
  pose proof Hn as (Hc & Hf & Hfs & Hu & Hok).
  assert (flags_ok w' (newRoot name run w)) as Hfok.
  { intros g Hg. assert (g = length (flagsets w)) as -> by (simpl in Hg; congruence). eauto. }
  assert ("help" ≠ "") as Hne by discriminate.
  destruct (ExecArgs_descend_quiet (length (cmds w)) "help" [] w' (newRoot name run w)
              {["help" := S (length (cmds w))]} (S (length (cmds w)))
              Hc Hfok eq_refl (lookup_singleton_eq _ _) Hne eq_refl)
    as (w1 & Hstep & Hext & Hst1).
  destruct (usageNode_extends _ _ _ _ _ _ Hext Hn) as (cmd1 & fs1 & Hn1 & _ & Htext1).
  destruct (ExecArgs_help_node (S (length (cmds w))) (length (cmds w)) nil_slice w1
              (length (cmds w)) cmd1 _ fs1
              (helpNode_extends _ _ _ _ Hext Hh) I eq_refl Hn1)
    as (w2 & Hrun & Hst2 & _).
  exists w2. split; [by rewrite Hstep|].
  by rewrite Hst2, Htext1, Htext, Hst1, Hst.
Qed.

(** X11: [Exec] on a node fresh from [New] without an action, when the
    command line has no arguments: the usage text of the node, then exit
    status 1. *)
Theorem Exec_without_arguments name w w' c :
  os_Args1 = [] →
  New name None w = (w', Return c) →
  ∃ w'', Exec c w' = Some (w'', Exit 1%Z)
         ∧ stderr w'' = stderr w ++ newUsageText name.
Proof.
  intros Hargs HNew. destruct (New_nodes _ _ _ _ _ HNew) as (Hn & _ & Htext).
  destruct (New_world _ _ _ _ _ HNew) as (_ & _ & _ & Hst).
  unfold Exec. rewrite Hargs.
  destruct (ExecArgs_usage_exit c (mk_slice []) w' _ _ _ Hn eq_refl I) as (w2 & Hrun & Hst2).
  { intros m tok _ Htok. discriminate Htok. }
  exists w2. split; [done|]. by rewrite Hst2, Htext, Hst.
Qed.

Lemma usageNode_flags_ok w c cmd f fs : usageNode w c cmd f fs → flags_ok w cmd.
Proof.
  intros (_ & Hf & Hfs & _) g Hg. assert (g = f) as -> by congruence. eauto.
Qed.

(** X12: "help <subcommand>" and "<subcommand> help" are effectively the
    same, as the comment on [New] says: on a tree of nodes made by [New],
    both write the usage text of the subcommand and return normally. *)
Theorem help_sub_same_as_sub_help r s w rc m h sub sc f fs ms hs :
  cmds w !! r = Some rc → flags_ok w rc → Commands rc = Some m →
  m !! "help" = Some h → helpNode w h r →
  m !! s = Some sub → s ≠ "" → readToken s = Positional →
  usageNode w sub sc f fs →
  Commands sc = Some ms → ms !! "help" = Some hs → helpNode w hs sub →
  ∃ w1 w2,
    ExecArgs r (mk_slice ["help"; s]) w = Some (w1, Return tt)
    ∧ ExecArgs r (mk_slice [s; "help"]) w = Some (w2, Return tt)
    ∧ stderr w1 = stderr w ++ usageText (cmds w) sc (formal fs)
    ∧ stderr w2 = stderr w1.
Proof.
  intros Hr Hfok Hm Hh Hhn Hs Hne Hpos Hn Hms Hhs Hhsn.
  assert ("help" ≠ "") as Hhelp by discriminate.
  (* help s *)
  destruct (ExecArgs_descend_quiet r "help" [s] w rc m h Hr Hfok Hm Hh Hhelp eq_refl)
    as (wa & Hstepa & Hexta & Hsta).
  destruct (usageNode_extends _ _ _ _ _ _ Hexta Hn) as (sca & fsa & Hna & _ & Htexta).
  assert (helpTarget wa r (mk_slice [s]) sub) as Hta.
  { apply (helpTarget_extends w); [done|]. unfold helpTarget. simpl.
    exists rc. by rewrite Hm. }
  destruct (ExecArgs_help_node h r (mk_slice [s]) wa sub sca f fsa
              (helpNode_extends _ _ _ _ Hexta Hhn) Hpos Hta Hna)
    as (w1 & Hrun1 & Hst1 & _).
  (* s help *)
  destruct (ExecArgs_descend_quiet r s ["help"] w rc m sub Hr Hfok Hm Hs Hne Hpos)
    as (wb & Hstepb & Hextb & Hstb).
  destruct (usageNode_extends _ _ _ _ _ _ Hextb Hn) as (scb & fsb & Hnb & Hfrb & Htextb).
  pose proof Hnb as (Hscb & _).
  destruct (ExecArgs_descend_quiet sub "help" [] wb scb ms hs Hscb
              (usageNode_flags_ok _ _ _ _ _ Hnb)
              ltac:(by rewrite (frame_Commands _ _ _ _ Hfrb)) Hhs Hhelp eq_refl)
    as (wc & Hstepc & Hextc & Hstc).
  destruct (usageNode_extends _ _ _ _ _ _ Hextc Hnb) as (scc & fsc & Hnc & _ & Htextc).
  destruct (ExecArgs_help_node hs sub nil_slice wc sub scc f fsc
              (helpNode_extends _ _ _ _ Hextc (helpNode_extends _ _ _ _ Hextb Hhsn))
              I eq_refl Hnc)
    as (w2 & Hrun2 & Hst2 & _).
  exists w1, w2. split_and!.
  - by rewrite Hstepa.
  - by rewrite Hstepb, Hstepc.
  - by rewrite Hst1, Htexta, Hsta.
  - by rewrite Hst2, Htextc, Htextb, Hstc, Hstb, Hst1, Htexta, Hsta.
Qed.

(** ** Termination and outcomes *)

(** X1: dispatch always ends, on a tree with cycles as well: every nested
    call receives fewer arguments than its caller, so [len args + 1]
    activations are enough and more change nothing. *)
Theorem dispatch_terminates c args w :
  ∃ w' r, ExecArgs c args w = Some (w', r)
          ∧ ∀ n, len args < n → ExecArgs_fuel n c args w = Some (w', r).
Proof.
  destruct (ExecArgs_terminates c args w) as [[w' r] H]. exists w', r.
  split; [done|]. intros n Hn. rewrite <- H. unfold ExecArgs.
  apply ExecArgs_fuel_enough; lia.
Qed.

Lemma ExecArgs_step_Return_None c args w w' :
  ExecArgs_step c args w = (w', Return None) →
  ∃ a w1 cmd run,
    extends w w1 ∧ cmds w1 !! c = Some cmd ∧ Run cmd = Some run
    ∧ callRun run c a w1 = (w', Return None).
Proof.
  unfold ExecArgs_step. unfold bind at 1.
  destruct (ExecArgs_parse c args w) as [w1 [f|code|msg]] eqn:Hp; [|done..].
  apply preserves_ExecArgs_parse in Hp.
  unfold ExecArgs_route. unfold bind at 1.
  destruct (derefCmd c w1) as [w2 r2] eqn:Hd.
  apply derefCmd_inv in Hd as [-> [[? ->]|(cmd & Hc & ->)]]; [done|].
  unfold bind at 1.
  destruct (derefFlagSet f w1) as [w2 r2] eqn:Hd.
  apply derefFlagSet_inv in Hd as [-> [[? ->]|(fs & Hfs & ->)]]; [done|].
  destruct (matchSub cmd fs) as [sub|].
  { case_decide; [destruct (slice_from1 (Args fs))|]; mred; intros; simplify_eq. }
  destruct (Run cmd) as [run|] eqn:HR.
  - unfold bind at 1. destruct (invoke run c (Args fs) w1) as [w2 [[]|code|msg]] eqn:Hi;
      [|done..].
    unfold ret. intros H. simplify_eq. exists (Args fs), w1, cmd, run.
    split_and!; try done.
    unfold invoke in Hi. unfold bind at 1 in Hi.
    destruct (callRun run c (Args fs) w1) as [w3 [[e|]|code|msg]]; mred; by simplify_eq.
  - unfold bind. destruct (Usage_call callUsage f w1) as [w2 [[]|code|msg]]; mred; done.
Qed.

(** X2: [ExecArgs] never returns without an action having run: a normal
    return means that some node's [RunFunc] was called and returned nil,
    and what it left behind is the final state. *)
Theorem return_means_action_succeeded c args w w' :
  ExecArgs c args w = Some (w', Return tt) →
  ∃ d a w1 cmd run,
    extends w w1 ∧ cmds w1 !! d = Some cmd ∧ Run cmd = Some run
    ∧ callRun run d a w1 = (w', Return None).
Proof.
  unfold ExecArgs. generalize (S (len args)). intros n. revert c args w.
  induction n as [|n IH]; intros c args w; [done|]. rewrite ExecArgs_fuel_S.
  destruct (ExecArgs_step c args w) as [w1 [[[sub rest]|]|code|msg]] eqn:Hs; try done.
  - intros H. apply preserves_ExecArgs_step in Hs.
    destruct (IH _ _ _ H) as (d & a & w2 & cmd & run & Hext & Hd & HR & Hrun).
    exists d, a, w2, cmd, run. split; [by eapply extends_trans|done].
  - intros H. simplify_eq.
    destruct (ExecArgs_step_Return_None _ _ _ _ Hs) as (a & w2 & cmd & run & H).
    by exists c, a, w2, cmd, run.
Qed.

(** ** More of registration *)

Lemma AddCmd_twice c a b w x xa xb :
  cmds w !! c = Some x → cmds w !! a = Some xa → cmds w !! b = Some xb →
  Name xa ≠ "" → Name xb ≠ "" →
  (AddCmd c a;; AddCmd c b) w
  = (mkWorld (<[c := mkCmd (Name x) (Description x) (Flags x)
                           (Some (<[Name xb := b]>
                                    (<[Name xa := a]> (default ∅ (Commands x)))))
                           (Run x)]> (cmds w))
             (flagsets w) (stderr w),
     Return tt).
Proof.
  intros Hc Ha Hb Hna Hnb. pose proof (lookup_lt_Some _ _ _ Hc) as Hlt.
  unfold bind. rewrite (AddCmd_named c a w x xa Hc Ha Hna).
  set (x1 := mkCmd (Name x) (Description x) (Flags x)
                   (Some (<[Name xa := a]> (default ∅ (Commands x)))) (Run x)).
  set (w1 := mkWorld (<[c := x1]> (cmds w)) (flagsets w) (stderr w)).
  assert (cmds w1 !! c = Some x1) as Hc1 by (by apply list_lookup_insert_eq).
  assert (∃ xb1, cmds w1 !! b = Some xb1 ∧ Name xb1 = Name xb) as (xb1 & Hb1 & Hnb1).
  { destruct (decide (b = c)) as [->|Hbc].
    - exists x1. split; [done|]. simpl. congruence.
    - exists xb. split; [|done]. simpl. by rewrite list_lookup_insert_ne. }
  rewrite (AddCmd_named c b w1 x1 xb1 Hc1 Hb1) by congruence.
  simpl. by rewrite Hnb1, list_insert_insert_eq.
Qed.

(** X15: [AddCmd] with a named child returns normally and changes one thing:
    in the children of the receiver the name of the child now leads to the
    child. Every other name leads where it led before (nowhere, if the map
    was nil), the other fields of the receiver, all other nodes, the flag
    sets and the error stream are as they were. *)
Theorem AddCmd_registers c cmd w x y :
  cmds w !! c = Some x → cmds w !! cmd = Some y → Name y ≠ "" →
  ∃ w' x' m',
    AddCmd c cmd w = (w', Return tt)
    ∧ cmds w' !! c = Some x' ∧ Commands x' = Some m'
    ∧ m' !! Name y = Some cmd
    ∧ (∀ n, n ≠ Name y → m' !! n = default ∅ (Commands x) !! n)
    ∧ Name x' = Name x ∧ Description x' = Description x
    ∧ Flags x' = Flags x ∧ Run x' = Run x
    ∧ (∀ a, a ≠ c → cmds w' !! a = cmds w !! a)
    ∧ length (cmds w') = length (cmds w)
    ∧ flagsets w' = flagsets w ∧ stderr w' = stderr w.
Proof.
  intros Hc Hcmd Hn. pose proof (lookup_lt_Some _ _ _ Hc) as Hlt.
  eexists _, (mkCmd (Name x) (Description x) (Flags x)
                    (Some (<[Name y := cmd]> (default ∅ (Commands x)))) (Run x)),
           (<[Name y := cmd]> (default ∅ (Commands x))).
  split; [by apply (AddCmd_named c cmd w x y)|]. simpl.
  split_and!; try reflexivity.
  - by apply list_lookup_insert_eq.
  - apply lookup_insert_eq.
  - intros n Hne. by apply lookup_insert_ne.
  - intros a Hne. by apply list_lookup_insert_ne.
  - apply length_insert.
Qed.

(** X16: registrations under different names do not depend on their order. *)
Theorem AddCmd_commutes c a b w x xa xb :
  cmds w !! c = Some x → cmds w !! a = Some xa → cmds w !! b = Some xb →
  Name xa ≠ "" → Name xb ≠ "" → Name xa ≠ Name xb →
  (AddCmd c a;; AddCmd c b) w = (AddCmd c b;; AddCmd c a) w.
Proof.
  intros Hc Ha Hb Hna Hnb Hne.
  rewrite (AddCmd_twice c a b w x xa xb), (AddCmd_twice c b a w x xb xa) by done.
  by rewrite insert_insert_ne.
Qed.

(** X17: a child registered with [AddCmd] is reached by dispatch: when the
    arguments start with its name, not read as a flag, the receiver hands
    the remaining arguments to the child (the nil slice when none remain)
    and writes nothing. *)
Theorem AddCmd_then_dispatch c cmd rest w x y :
  cmds w !! c = Some x → flags_ok w x → cmds w !! cmd = Some y →
  Name y ≠ "" → readToken (Name y) = Positional →
  ∃ w' w1,
    AddCmd c cmd w = (w', Return tt)
    ∧ ExecArgs c (mk_slice (Name y :: rest)) w'
      = ExecArgs cmd (match rest with [] => nil_slice | _ => mk_slice rest end) w1
    ∧ extends w' w1 ∧ stderr w1 = stderr w.
Proof.
  intros Hc Hfok Hcmd Hn Hpos. pose proof (lookup_lt_Some _ _ _ Hc) as Hlt.
  pose proof (AddCmd_named c cmd w x y Hc Hcmd Hn) as Hadd.
  set (x' := mkCmd (Name x) (Description x) (Flags x)
                   (Some (<[Name y := cmd]> (default ∅ (Commands x)))) (Run x)) in *.
  set (w' := mkWorld (<[c := x']> (cmds w)) (flagsets w) (stderr w)) in *.
  assert (cmds w' !! c = Some x') as Hc' by (by apply list_lookup_insert_eq).
  destruct (ExecArgs_descend_quiet c (Name y) rest w' x' _ cmd Hc' Hfok eq_refl
              (lookup_insert_eq _ _ _) Hn Hpos)
    as (w1 & Hstep & Hext & Hst).
  by exists w', w1.
Qed.

(** ** Exit statuses, all of them *)

Lemma exit_ok_bind {A B} (m : M A) (k : A → M B) :
  exit_ok m → (∀ a, exit_ok (k a)) → exit_ok (bind m k).
Proof.
  intros Hm Hk w w' code. unfold bind.
  destruct (m w) as [w1 [a|code1|msg]] eqn:E; intros H.
  - by eapply Hk.
  - simplify_eq. by eapply Hm.
  - done.
Qed.

Lemma exit_ok_ret {A} (a : A) : exit_ok (ret a).
Proof. by intros w w' code H. Qed.

Lemma exit_ok_panic {A} msg : exit_ok (@panic A msg).
Proof. by intros w w' code H. Qed.

Lemma exit_ok_Exit0 {A} : exit_ok (@os_Exit A 0%Z).
Proof. intros w w' code H. unfold os_Exit in H. simplify_eq. auto. Qed.

Lemma exit_ok_Exit1 {A} : exit_ok (@os_Exit A 1%Z).
Proof. intros w w' code H. unfold os_Exit in H. simplify_eq. auto. Qed.

Lemma exit_ok_Exit2 {A} : exit_ok (@os_Exit A 2%Z).
Proof. intros w w' code H. unfold os_Exit in H. simplify_eq. auto. Qed.

Lemma exit_ok_emit x : exit_ok (emit x).
Proof. by intros w w' code H. Qed.

Lemma exit_ok_Fprint s : exit_ok (Fprint s).
Proof. by intros w w' code H. Qed.

Lemma exit_ok_derefCmd c : exit_ok (derefCmd c).
Proof. intros w w' code H. apply derefCmd_inv in H as [_ [[_ ?]|(? & _ & ?)]]; done. Qed.

Lemma exit_ok_derefFlagSet f : exit_ok (derefFlagSet f).
Proof.
  intros w w' code H. apply derefFlagSet_inv in H as [_ [[_ ?]|(? & _ & ?)]]; done.
Qed.

Lemma exit_ok_storeCmd c x : exit_ok (storeCmd c x).
Proof. by intros w w' code H. Qed.

Lemma exit_ok_storeFlagSet f x : exit_ok (storeFlagSet f x).
Proof. by intros w w' code H. Qed.

Lemma exit_ok_NewFlagSet name eh : exit_ok (NewFlagSet name eh).
Proof. by intros w w' code H. Qed.

Create HintDb exits.

Hint Resolve exit_ok_ret exit_ok_panic exit_ok_Exit0 exit_ok_Exit1 exit_ok_Exit2
  exit_ok_emit exit_ok_Fprint exit_ok_derefCmd exit_ok_derefFlagSet exit_ok_storeCmd
  exit_ok_storeFlagSet exit_ok_NewFlagSet : exits.

Ltac exits :=
  repeat first
    [ solve [eauto with exits]
    | match goal with
      | |- exit_ok (bind _ _) => apply exit_ok_bind; [|intros ?]
      | |- exit_ok (match ?x with _ => _ end) => destruct x
      | |- exit_ok (if ?x then _ else _) => destruct x
      end ].

Lemma exit_ok_PrintDefaults f : exit_ok (PrintDefaults f).
Proof. unfold PrintDefaults. exits. Qed.

Lemma exit_ok_defaultUsage f : exit_ok (defaultUsage f).
Proof. unfold defaultUsage. pose proof exit_ok_PrintDefaults. exits. Qed.

Lemma exit_ok_printSubcommands c : exit_ok (printSubcommands c).
Proof.
  unfold printSubcommands. apply exit_ok_bind; [exits|]. intros cmd.
  destruct (Commands cmd) as [m|]; [|exits].
  apply exit_ok_bind; [exits|]. intros _ w w' code.
  destruct (writeRows (cmds w) m (subNames m)) as [lines ok].
  assert (exit_ok (emit (Table lines);; if ok then ret tt else panic nil_deref)) as Hp
    by exits.
  apply Hp.
Qed.

Hint Resolve exit_ok_PrintDefaults exit_ok_defaultUsage exit_ok_printSubcommands : exits.

Lemma exit_ok_newUsage c : exit_ok (newUsage c).
Proof. unfold newUsage. exits. Qed.

Lemma exit_ok_callUsage u : exit_ok (callUsage u).
Proof. pose proof exit_ok_newUsage. destruct u; simpl; exits. Qed.

Hint Resolve exit_ok_newUsage exit_ok_callUsage : exits.

Lemma exit_ok_Parse f arguments : exit_ok (Parse callUsage f arguments).
Proof. unfold Parse, failf, usage. exits. Qed.

Lemma exit_ok_helpRun parent c args : exit_ok (helpRun parent c args).
Proof. unfold helpRun, Usage_call. exits. Qed.

Lemma exit_ok_callRun run c args : exit_ok (callRun run c args).
Proof.
  destruct run; simpl; [apply exit_ok_helpRun|]. by intros w w' code H.
Qed.

Hint Resolve exit_ok_Parse exit_ok_helpRun exit_ok_callRun : exits.

Lemma exit_ok_ExecArgs_step c args : exit_ok (ExecArgs_step c args).
Proof.
  unfold ExecArgs_step, ExecArgs_parse, ExecArgs_flags, ExecArgs_route, invoke, Usage_call.
  exits.
Qed.

(** X3: the exit statuses of dispatch are 0, 1 and 2 and no other. *)
Theorem exit_status_is_0_1_or_2 c args w w' code :
  ExecArgs c args w = Some (w', Exit code) → code = 0%Z ∨ code = 1%Z ∨ code = 2%Z.
Proof.
  unfold ExecArgs. generalize (S (len args)). intros n. revert c args w.
  induction n as [|n IH]; intros c args w; [done|]. rewrite ExecArgs_fuel_S.
  destruct (ExecArgs_step c args w) as [w1 [[[sub rest]|]|code1|msg]] eqn:Hs; try done.
  - apply IH.
  - intros H. simplify_eq. by eapply exit_ok_ExecArgs_step.
Qed.

(** ** Flags before the subcommand *)

(** X5: a flag written before the name of a subcommand belongs to the node
    that is dispatching: its flag set takes the value, and the child
    receives only what follows its own name. *)
Theorem flags_before_subcommand c name v tok rest w cmd f fs fl m sub :
  cmds w !! c = Some cmd → Flags cmd = Some f → flagsets w !! f = Some fs →
  formal fs !! name = Some fl → flag_Set fl v = None → plainName name →
  Commands cmd = Some m → m !! tok = Some sub → tok ≠ "" → readToken tok = Positional →
  let fs1 := parsedSet fs (<[name := v]> (actual fs)) (mk_slice (tok :: rest)) in
  ExecArgs c (mk_slice (flagToken name v :: tok :: rest)) w
  = ExecArgs sub (match rest with [] => nil_slice | _ => mk_slice rest end)
             (parsedWorld w f fs1)
  ∧ actual fs1 !! name = Some v.
Proof.
  intros Hc Hf Hfs Hfl Hset Hplain Hm Hsub Hne Hpos fs1.
  split; [|apply lookup_insert_eq].
  assert (ExecArgs_flags c w = (w, Return f)) as Hflags.
  { unfold ExecArgs_flags, bind. by rewrite (derefCmd_Some _ _ _ Hc), Hf. }
  assert (parseArgs (formal fs) (actual fs)
                    (elems (mk_slice (flagToken name v :: tok :: rest)))
          = (<[name := v]> (actual fs), tok :: rest, parseDone)) as Hpa.
  { simpl elems. rewrite (parseArgs_flagToken _ _ _ _ fl) by done.
    by apply parseArgs_positional. }
  pose proof (ExecArgs_parse_done _ _ _ _ _ _ _ _ Hflags Hfs Hpa) as Hp.
  rewrite ExecArgs_unfold, (ExecArgs_step_route _ _ _ _ _ Hp).
  change (mkWorld _ _ _) with (parsedWorld w f fs1).
  rewrite (ExecArgs_route_sub c f (parsedWorld w f fs1) cmd fs1 sub Hc
             (parsedWorld_flagset _ _ _ _ Hfs)).
  - simpl. by destruct rest.
  - unfold matchSub, Arg. rewrite Hm. simpl. by case_decide.
Qed.

(** ** Help for the help command *)

Lemma ExecArgs_parse_cmds c args w cmd f w1 g :
  cmds w !! c = Some cmd → Flags cmd = Some f →
  ExecArgs_parse c args w = (w1, Return g) → cmds w1 = cmds w.
Proof.
  intros Hc Hf Hp.
  apply ExecArgs_parse_inv in Hp as (w0 & fs & act & rest & Hfl & _ & _ & ->).
  apply ExecArgs_flags_inv in Hfl as (cmd' & Hc' & [[_ ->]|[Hn _]]); [done|].
  congruence.
Qed.

Lemma defaultUsage_text f w fs :
  flagsets w !! f = Some fs →
  defaultUsage f w = (written w (defaultUsageText (fs_name fs) (formal fs)), Return tt).
Proof.
  intros Hfs. unfold defaultUsage. unfold bind at 1.
  rewrite (derefFlagSet_Some _ _ _ Hfs). unfold PrintDefaults, written, defaultUsageText.
  case_decide; mred; unfold derefFlagSet; simpl; rewrite Hfs; simpl;
    by rewrite <- app_assoc.
Qed.

Lemma helpRun_default_text parent c args w q qc f fs :
  helpTarget w parent args q →
  cmds w !! q = Some qc → Flags qc = Some f → flagsets w !! f = Some fs →
  Usage fs = Some (defaultUsageOf f) →
  helpRun parent c args w
  = (written w (defaultUsageText (fs_name fs) (formal fs)), Return None).
Proof.
  intros Ht Hq Hf Hfs Hu. unfold helpRun.
  assert (match elems args with
          | [] => ret (Some parent)
          | a0 :: _ =>
              let* p := derefCmd parent in
              match Commands p with
              | None => ret (Some parent)
              | Some m => ret (m !! a0)
              end
          end w = (w, Return (Some q))) as Hpp.
  { unfold helpTarget in Ht. destruct (elems args) as [|a0 l]; [by subst|].
    destruct Ht as (p & Hp & Ht). unfold bind. rewrite (derefCmd_Some _ _ _ Hp).
    destruct (Commands p); unfold ret; [by rewrite Ht|by subst]. }
  unfold bind at 1. rewrite Hpp. unfold bind at 1. unfold bind at 1.
  rewrite (derefCmd_Some _ _ _ Hq), Hf. unfold Usage_call. unfold bind at 1.
  rewrite (derefFlagSet_Some _ _ _ Hfs), Hu. simpl callUsage.
  by rewrite (defaultUsage_text f w fs Hfs).
Qed.

(** X10: "help help" on a node fresh from [New] does not show the
    description of the help command. Dispatch gives the help command a flag
    set named after the program before the help action looks at it, so what
    is written is the flag package's default usage, "Usage of
    <os.Args[0]>:" with no flags; the return is normal. *)
Theorem help_help_default_usage name run w w' c :
  New name run w = (w', Return c) →
  ∃ w'', ExecArgs c (mk_slice ["help"; "help"]) w' = Some (w'', Return tt)
         ∧ stderr w'' = stderr w ++ defaultUsageText os_Args0 ∅.
Proof.
  intros HNew. destruct (New_nodes _ _ _ _ _ HNew) as (Hn & _ & _).
  destruct (New_world _ _ _ _ _ HNew) as (-> & Hcmds & _ & Hst).
  pose proof Hn as (Hc & Hf & Hfs & Hu & Hok).
  pose proof (usageNode_flags_ok _ _ _ _ _ Hn) as Hfok.
  assert (cmds w' !! S (length (cmds w)) = Some (newHelp name w)) as Hh.
  { rewrite Hcmds, lookup_app_r by lia.
    by replace (S (length (cmds w)) - length (cmds w)) with 1 by lia. }
  (* the activation of the node *)
  destruct (ExecArgs_parse_quiet (length (cmds w)) (mk_slice ["help"; "help"]) w'
              (newRoot name run w) Hc Hfok eq_refl)
    as (w1 & f1 & fs1 & cmd1 & Hp & Hext & Hst1 & Hc1 & Hfr & Hf1 & Hfs1 & Hargs & _).
  pose proof (ExecArgs_parse_cmds _ _ _ _ _ _ _ Hc Hf Hp) as Hcmds1.
  assert (matchSub cmd1 fs1 = Some (S (length (cmds w)))) as Hmatch.
  { unfold matchSub, Arg. rewrite (frame_Commands _ _ _ _ Hfr), Hargs. simpl.
    apply lookup_singleton_eq. }
  (* the activation of its help command *)
  assert (cmds w1 !! S (length (cmds w)) = Some (newHelp name w)) as Hh1 by congruence.
  assert (flags_ok w1 (newHelp name w)) as Hhok by (intros g Hg; discriminate Hg).
  destruct (ExecArgs_parse_quiet (S (length (cmds w))) (mk_slice ["help"]) w1
              (newHelp name w) Hh1 Hhok eq_refl)
    as (w2 & f2 & fs2 & hc2 & Hp2 & Hext2 & Hst2 & Hh2 & Hfr2 & Hf2 & Hfs2 & Hargs2 & Hnew).
  destruct (Hnew eq_refl) as (Hu2 & Hname2 & Hformal2).
  assert (helpTarget w2 (length (cmds w)) (mk_slice ["help"]) (S (length (cmds w)))) as Ht.
  { destruct (ext_cmds _ _ Hext2 _ _ Hc1) as (cmd2 & Hc2 & Hfr').
    unfold helpTarget. simpl. exists cmd2. split; [done|].
    rewrite (frame_Commands _ _ _ _ Hfr'), (frame_Commands _ _ _ _ Hfr). simpl.
    apply lookup_singleton_eq. }
  pose proof (helpRun_default_text (length (cmds w)) (S (length (cmds w)))
                (mk_slice ["help"]) w2 _ hc2 f2 fs2 Ht Hh2 Hf2 Hfs2 Hu2) as Hrun.
  rewrite Hname2, Hformal2 in Hrun.
  exists (written w2 (defaultUsageText os_Args0 ∅)). split.
  - rewrite ExecArgs_unfold, (ExecArgs_step_route _ _ _ _ _ Hp).
    rewrite (ExecArgs_route_sub _ _ _ cmd1 fs1 _ Hc1 Hfs1 Hmatch).
    unfold Args. rewrite Hargs. simpl.
    rewrite (ExecArgs_run _ _ _ w2 f2 hc2 fs2 (helpRunOf (length (cmds w))) Hp2 Hh2 Hfs2).
    + unfold invoke, bind, Args. simpl callRun. by rewrite Hargs2, Hrun.
    + unfold matchSub. by rewrite (frame_Commands _ _ _ _ Hfr2).
    + by rewrite (frame_Run _ _ _ _ Hfr2).
  - simpl. by rewrite Hst2, Hst1, Hst.
Qed.

(** ** A flag set without a usage function *)

(** X7: [ExecArgs] and the help action call the [Usage] field of a flag set
    directly. For a flag set whose [Usage] is nil (the zero [flag.FlagSet])
    a routing miss on a node without an action panics instead of printing
    and exiting, and so does the help action aimed at such a node; nothing
    is written before. *)
Theorem nil_Usage_panics c w cmd f fs :
  cmds w !! c = Some cmd → Flags cmd = Some f → flagsets w !! f = Some fs →
  Usage fs = None →
  (∀ args,
     Run cmd = None → startsPositional args →
     (∀ m tok, Commands cmd = Some m → head (elems args) = Some tok → m !! tok = None) →
     ∃ w1, ExecArgs c args w = Some (w1, Panic nil_deref) ∧ stderr w1 = stderr w)
  ∧ (∀ parent h args, helpTarget w parent args c →
                      helpRun parent h args w = (w, Panic nil_deref)).
Proof.
  intros Hc Hf Hfs Hu. split.
  - intros args HR Hpos Hno.
    assert (flags_ok w cmd) as Hfok.
    { intros g Hg. assert (g = f) as -> by congruence. eauto. }
    destruct (ExecArgs_step_quiet c args w cmd Hc Hfok Hpos)
      as (w1 & f1 & fs1 & cmd1 & Hstep & Hext & Hst & Hc1 & Hfr & Hf1 & Hfs1 & Hargs & _).
    destruct (ext_flagsets _ _ Hext f fs Hfs) as (fs' & Hfs' & [HU _ _ _]).
    pose proof (frame_Flags _ _ _ _ Hfr) as HF. unfold flags_frame in HF.
    rewrite Hf in HF. assert (f1 = f) as -> by congruence.
    assert (fs' = fs1) as -> by congruence.
    exists w1. split; [|done].
    rewrite ExecArgs_unfold, Hstep.
    rewrite (ExecArgs_route_usage c f w1 cmd1 fs1 Hc1 Hfs1).
    + unfold bind, Usage_call, bind.
      by rewrite (derefFlagSet_Some _ _ _ Hfs1), HU, Hu.
    + unfold matchSub, Arg. rewrite (frame_Commands _ _ _ _ Hfr), Hargs.
      destruct (Commands cmd) as [m|] eqn:Hm; [|done]. case_decide as Ha; [done|].
      destruct (elems args) as [|tok l] eqn:He; [done|]. by eapply Hno.
    + by rewrite (frame_Run _ _ _ _ Hfr).
  - intros parent h args Ht. unfold helpRun.
    assert (match elems args with
            | [] => ret (Some parent)
            | a0 :: _ =>
                let* p := derefCmd parent in
                match Commands p with
                | None => ret (Some parent)
                | Some m => ret (m !! a0)
                end
            end w = (w, Return (Some c))) as Hpp.
    { unfold helpTarget in Ht. destruct (elems args) as [|a0 l]; [by subst|].
      destruct Ht as (p & Hp & Ht). unfold bind. rewrite (derefCmd_Some _ _ _ Hp).
      destruct (Commands p); unfold ret; [by rewrite Ht|by subst]. }
    unfold bind at 1. rewrite Hpp. unfold bind at 1. unfold bind at 1.
    rewrite (derefCmd_Some _ _ _ Hc), Hf. unfold Usage_call, bind.
    by rewrite (derefFlagSet_Some _ _ _ Hfs), Hu.
Qed.

(** ** Checking a world by running over it *)

Lemma check_flags_of_ok w cmd : check_flags_of w cmd = true → flags_ok w cmd.
Proof.
  unfold check_flags_of. intros H f Hf. rewrite Hf in H.
  apply bool_decide_eq_true_1 in H. by apply lookup_lt_is_Some.
Qed.

Lemma check_children_ok w cmd : check_children w cmd = true → children_ok w cmd.
Proof.
  unfold check_children. intros H m n p Hm Hp. rewrite Hm in H.
  rewrite forallb_forall in H. specialize (H (n, p)).
  apply lookup_lt_is_Some. apply (bool_decide_eq_true_1 (p < length (cmds w))), H.
  by apply list_elem_of_In, elem_of_map_to_list.
Qed.

End Program.

(** * A command line at work *)

(** A plain rendering of [%q], enough for names without quotes in them. *)
Definition quoted (s : string) : string :=
  String "034"%char s +:+ String "034"%char "".

(** Three actions: one that succeeds, one that fails when handed the nil
    slice, one that always fails. *)
Definition demo_actions (id : nat) (w : World) (c : ptr) (args : slice) : option error :=
  match id with
  | 0 => None
  | 1 => match args with
         | nil_slice => Some (errorString "args is nil")
         | mk_slice _ => None
         end
  | _ => Some (errorString "failed")
  end.

(** What [fs.String("flag", ...)] registers. *)
Definition stringFlag : Flag := mkFlag "" "" false (fun _ => None).

(** root(0) with help(1); a(2) with help(3); b(4) with help(5) and a string
    flag "flag"; probe(6) with help(7). root has the children a and probe,
    a has the child b. The flag sets 0 to 3 belong to root, a, b, probe. *)
Definition demo_build : M unit :=
  let* root := New "root" None in
  let* a := New "a" None in
  let* b := New "b" (Some (userRun 0)) in
  AddCmd root a;;
  AddCmd a b;;
  let* fs := derefFlagSet 2 in
  storeFlagSet 2 (mkFlagSet (Usage fs) (fs_name fs) (parsed fs) (actual fs)
                            {["flag" := stringFlag]} (fs_args fs) (errorHandling fs));;
  let* probe := New "probe" (Some (userRun 1)) in
  AddCmd root probe.

Definition demo : World := fst (demo_build (mkWorld [] [] [])).

Definition demo_ExecArgs := ExecArgs quoted "prog" demo_actions.

Ltac compute_eq := vm_compute; reflexivity.

(** The flag set [New] makes for node [c] called [name]. *)
Definition newFlagSetOf (c : ptr) (name : string) : FlagSet :=
  mkFlagSet (Some (newUsageOf c)) name false ∅ ∅ nil_slice ExitOnError.

Lemma demo_valid : valid_flags demo.
Proof. apply check_flags_valid. compute_eq. Qed.



Example dispatch_a_b_flag_pos :
  ∃ w1, demo_ExecArgs 0 (mk_slice ["a"; "b"; "--flag=v"; "pos"]) demo = Some (w1, Return tt)
        ∧ stderr w1 = []
        ∧ (actual <$> flagsets w1) = [∅; ∅; {["flag" := "v"]}; ∅]
        ∧ (fs_args <$> flagsets w1)
          = [mk_slice ["a"; "b"; "--flag=v"; "pos"]; mk_slice ["b"; "--flag=v"; "pos"];
             mk_slice ["pos"]; nil_slice].
Proof. eexists. split_and!; compute_eq. Qed.

(** root probe *)
Lemma lone_subcommand_gets_nil_slice_witness :
  let w1 := parsedWorld demo 0 (parsedSet (newFlagSetOf 0 "root") ∅ (mk_slice ["probe"])) in
  demo_ExecArgs 0 (mk_slice ["probe"]) demo = demo_ExecArgs 6 nil_slice w1
  ∧ len nil_slice = 0
  ∧ ∃ w2 g gs, ExecArgs_parse quoted "prog" 6 nil_slice w1 = (w2, Return g)
               ∧ flagsets w2 !! g = Some gs ∧ Args gs = nil_slice ∧ NArg gs = 0.
Proof.
  eapply (lone_subcommand_gets_nil_slice quoted "prog" demo_actions 0 (mk_slice ["probe"])
            demo demo 0 (newFlagSetOf 0 "root") _ ∅ "probe" _ 6 _).
  - exact demo_valid.
  - compute_eq.
  - compute_eq.
  - compute_eq.
  - compute_eq.
  - done.
  - reflexivity.
  - compute_eq.
  - compute_eq.
Defined.

(** C2, as the claim has it: the child would be called with an empty slice
    that is not nil. It is called with the nil slice, which the action of
    [probe] observes. *)
Lemma lone_subcommand_not_empty_slice :
  let w1 := parsedWorld demo 0 (parsedSet (newFlagSetOf 0 "root") ∅ (mk_slice ["probe"])) in
  demo_ExecArgs 0 (mk_slice ["probe"]) demo ≠ demo_ExecArgs 6 (mk_slice []) w1
  ∧ snd <$> demo_ExecArgs 0 (mk_slice ["probe"]) demo = Some (Exit 1%Z)
  ∧ snd <$> demo_ExecArgs 6 (mk_slice []) w1 = Some (Return tt)
  ∧ snd <$> demo_ExecArgs 6 nil_slice w1 = Some (Exit 1%Z).
Proof.
  intros w1. split_and!; [|compute_eq..].
  intros H. apply (f_equal (fmap snd)) in H. vm_compute in H. discriminate H.
Qed.





(** A node without a name, next to the tree. *)
Definition demo_nameless : World :=
  mkWorld (cmds demo ++ [mkCmd "" "" None None None]) (flagsets demo) (stderr demo).

Lemma AddCmd_nameless_panics_witness :
  AddCmd 0 8 demo_nameless = (demo_nameless, Panic "cannot add nameless subcommand").
Proof.
  eapply (AddCmd_nameless_panics 0 8 demo_nameless
            (mkCmd "root" "" (Some 0) (Some {["a" := 2; "help" := 1; "probe" := 6]}) None)
            (mkCmd "" "" None None None)).
  - compute_eq.
  - compute_eq.
  - reflexivity.
Defined.

(** A node "top" and three nodes to register under it: "zeta", "alpha" and
    a second "alpha". *)
Definition demo_listing : World :=
  fst ((New "top" None;;
        allocCmd (mkCmd "zeta" "last" None None None);;
        allocCmd (mkCmd "alpha" "first" None None None);;
        allocCmd (mkCmd "alpha" "second" None None None);;
        AddCmd 0 2) (mkWorld [] [] [])).

Definition demo_top_children : gmap string ptr := {["help" := 1; "zeta" := 2]}.

Definition demo_listed : World := fst ((AddCmd 0 3;; AddCmd 0 4) demo_listing).

Lemma registration_replaces_and_listing_sorted_witness :
  (∃ w' y, (AddCmd 0 3;; AddCmd 0 4) demo_listing = (w', Return tt)
           ∧ cmds w' !! 0 = Some y
           ∧ Commands y = Some (<["alpha" := 4]> demo_top_children))
  ∧ printSubcommands 0 demo_listed
    = (mkWorld (cmds demo_listed) (flagsets demo_listed)
               (stderr demo_listed
                ++ [Text (NL +:+ "Commands" +:+ NL);
                    Table (listingRow (cmds demo_listed) (<["alpha" := 4]> demo_top_children)
                           <$> subNames (<["alpha" := 4]> demo_top_children))]),
       Return tt).
Proof.
  split.
  - eapply (proj1 registration_replaces_and_listing_sorted 0 3 4 demo_listing
              (mkCmd "top" "" (Some 0) (Some demo_top_children) None)
              (mkCmd "alpha" "first" None None None)
              (mkCmd "alpha" "second" None None None)).
    + compute_eq.
    + compute_eq.
    + compute_eq.
    + reflexivity.
    + done.
  - eapply (proj2 (proj2 (proj2 registration_replaces_and_listing_sorted)) 0 demo_listed).
    + compute_eq.
    + compute_eq.
    + intros n p H. unfold demo_top_children in H.
      repeat (apply lookup_insert_Some in H as [[<- <-]|[_ H]]; [vm_compute; eauto|]).
      apply lookup_singleton_Some in H as [<- <-]. vm_compute. eauto.
Defined.

(** "zeta" was registered before "alpha"; the second "alpha" is the one listed. *)
Example listing_zeta_alpha :
  printSubcommands 0 demo_listed
  = (mkWorld (cmds demo_listed) (flagsets demo_listed)
             [Text (NL +:+ "Commands" +:+ NL);
              Table [row "alpha" "second";
                     row "help" "Print the help message for top or a subcommand";
                     row "zeta" "last"]],
     Return tt).
Proof. compute_eq. Qed.

(** The flag set [ExecArgs] makes for a node that has none. *)
Definition lazyFlagSetOf (f : ptr) : FlagSet :=
  mkFlagSet (Some (defaultUsageOf f)) "prog" false ∅ ∅ nil_slice ExitOnError.

(** The world in which the help command of root (node 1) has got its flag
    set, number 4. *)
Definition demo_help_flags : World := fst (ExecArgs_flags "prog" 1 demo).

(** the activation of root's help command on [zzz] *)
Lemma help_unknown_command_witness :
  let w1 := parsedWorld demo_help_flags 4 (parsedSet (lazyFlagSetOf 4) ∅ (mk_slice ["zzz"])) in
  helpRun quoted 0 1 (mk_slice ["zzz"]) w1
  = (w1, Return (Some (errorString ("no such command: " +:+ quoted "zzz"))))
  ∧ demo_ExecArgs 1 (mk_slice ["zzz"]) demo
    = Some (mkWorld (cmds w1) (flagsets w1)
                    (stderr w1 ++ [Text ("error: no such command: " +:+ quoted "zzz" +:+ NL)]),
            Exit 1%Z).
Proof.
  eapply (help_unknown_command quoted "prog" demo_actions 1 (mk_slice ["zzz"]) demo
            demo_help_flags 4 (lazyFlagSetOf 4) _ ∅ 0 _ _ "zzz" []).
  - compute_eq.
  - compute_eq.
  - compute_eq.
  - compute_eq.
  - intros m' H. vm_compute in H. discriminate H.
  - reflexivity.
  - compute_eq.
  - reflexivity.
  - compute_eq.
Defined.

(** root help zzz *)
Example dispatch_help_zzz :
  ∃ w', demo_ExecArgs 0 (mk_slice ["help"; "zzz"]) demo = Some (w', Exit 1%Z)
        ∧ stderr w' = [Text ("error: no such command: " +:+ quoted "zzz" +:+ NL)].
Proof. eexists. split; compute_eq. Qed.



(** root help *)
Lemma dispatch_writes_only_nil_flags_witness :
  ∃ w' r, demo_ExecArgs 0 (mk_slice ["help"]) demo = Some (w', r) ∧ nodes_kept demo w'.
Proof.
  eexists _, _. split; [compute_eq|].
  eapply (proj1 (dispatch_writes_only_nil_flags quoted "prog" demo_actions)
            0 (mk_slice ["help"]) demo).
  compute_eq.
Defined.

(** C9, as the claim has it: dispatch would leave every field of every node
    as it was. Dispatching "help" gives the help command its flag set. *)
Lemma dispatch_sets_nil_flags :
  ∃ w' r, demo_ExecArgs 0 (mk_slice ["help"]) demo = Some (w', r)
          ∧ Flags <$> cmds demo !! 1 = Some None
          ∧ Flags <$> cmds w' !! 1 = Some (Some 4)
          ∧ cmds w' ≠ cmds demo.
Proof.
  eexists _, _. split_and!; [compute_eq..|].
  intros H. apply (f_equal (fun l => Flags <$> l !! 1)) in H. vm_compute in H.
  discriminate H.
Qed.

Lemma package_flag_sets_exit_on_error_witness :
  (∃ cmd f fs, cmds (fst (New "tool" None demo)) !! 8 = Some cmd ∧ Flags cmd = Some f
               ∧ flagsets demo !! f = None
               ∧ flagsets (fst (New "tool" None demo)) !! f = Some fs
               ∧ errorHandling fs = ExitOnError)
  ∧ (∃ w' r fs, demo_ExecArgs 0 (mk_slice ["help"]) demo = Some (w', r)
                ∧ flagsets demo !! 4 = None ∧ flagsets w' !! 4 = Some fs
                ∧ errorHandling fs = ExitOnError)
  ∧ (∃ w' r fs, newUsage 1 demo = (w', r)
                ∧ flagsets demo !! 4 = None ∧ flagsets w' !! 4 = Some fs
                ∧ errorHandling fs = ExitOnError)
  ∧ (∀ x, snd (Parse quoted callUsage 0 (mk_slice ["--bogus"]) demo) ≠ Return x)
  ∧ (∀ w1 e, Parse quoted callUsage 0 (mk_slice ["--bogus"]) demo ≠ (w1, Return (Some e))).
Proof.
  pose proof (package_flag_sets_exit_on_error quoted "prog" demo_actions)
    as (HNew & HExec & HUsage & HParse & HBranch).
  split_and!.
  - eapply (HNew "tool" None demo). compute_eq.
  - eexists _, _, _. split_and!; [compute_eq..|].
    eapply (HExec 0 (mk_slice ["help"]) demo _ _ 4); compute_eq.
  - eexists _, _, _. split_and!; [compute_eq..|].
    eapply (HUsage 1 demo _ _ 4); compute_eq.
  - eapply (HParse 0 (newFlagSetOf 0 "root") (mk_slice ["--bogus"]) demo ∅ []
              (parseFail "flag provided but not defined: -bogus")).
    + compute_eq.
    + reflexivity.
    + compute_eq.
    + done.
    + apply surjective_pairing.
  - intros w1 e.
    eapply (HBranch 0 (mk_slice ["--bogus"]) demo demo 0 (newFlagSetOf 0 "root"));
      [compute_eq|compute_eq|reflexivity].
Defined.

(** * More of the command line at work *)

(** The nodes, children maps and flag sets of the tree, by number. *)
Definition demo_node (n : ptr) : Cmd :=
  default (mkCmd "" "" None None None) (cmds demo !! n).

Definition demo_children (n : ptr) : gmap string ptr :=
  default ∅ (Commands (demo_node n)).

Definition demo_flagset (f : ptr) : FlagSet :=
  default (mkFlagSet None "" false ∅ ∅ nil_slice ContinueOnError) (flagsets demo !! f).

Lemma demo_usageNode_a : usageNode demo 2 (demo_node 2) 1 (demo_flagset 1).
Proof.
  split_and!; [compute_eq..|]. apply check_children_ok. compute_eq.
Qed.

Lemma demo_helpNode_root : helpNode demo 1 0.
Proof.
  exists (demo_node 1). split_and!; [compute_eq| |compute_eq..].
  apply check_flags_of_ok. compute_eq.
Qed.

Lemma demo_helpNode_a : helpNode demo 3 2.
Proof.
  exists (demo_node 3). split_and!; [compute_eq| |compute_eq..].
  apply check_flags_of_ok. compute_eq.
Qed.

(** the help action of root on [a junk] *)
Lemma help_renders_named_child_witness :
  helpRun quoted 0 1 (mk_slice ["a"; "junk"]) demo
  = (written demo (helpText demo (demo_node 2)), Return None)
  ∧ helpRun quoted 0 1 (mk_slice ["a"; "junk"]) demo
    = helpRun quoted 0 1 (mk_slice ["a"]) demo.
Proof.
  apply (help_renders_named_child quoted 0 1 "a" ["junk"] demo (demo_node 0)
           (demo_children 0) 2 (demo_node 2)).
  - compute_eq.
  - compute_eq.
  - compute_eq.
  - compute_eq.
  - apply check_children_ok. compute_eq.
  - intros f Hf. vm_compute in Hf. simplify_eq. exists (demo_flagset 1).
    split; compute_eq.
Defined.

(** root help a junk *)
Example dispatch_help_a_junk :
  ∃ w', demo_ExecArgs 0 (mk_slice ["help"; "a"; "junk"]) demo = Some (w', Return tt)
        ∧ stderr w'
          = [Text ("a - " +:+ NL);
             Text (NL +:+ "Commands" +:+ NL);
             Table [row "b" ""; row "help" "Print the help message for a or a subcommand"];
             Text (NL +:+ "Flags" +:+ NL);
             Defaults ∅].
Proof. eexists. split; compute_eq. Qed.

(** the listing of root's help command, which has no children *)
Lemma printSubcommands_silent_iff_nil_witness :
  (stderr (fst (printSubcommands 1 demo)) = stderr demo ↔ Commands (demo_node 1) = None)
  ∧ (Commands (demo_node 1) = Some ∅ →
     printSubcommands 1 demo
     = (written demo [Text (NL +:+ "Commands" +:+ NL); Table []], Return tt)).
Proof. apply (printSubcommands_silent_iff_nil 1 demo (demo_node 1)). compute_eq. Defined.

(** A node written as a literal: no flag set, no action, no children. *)
Definition demo_literal : World :=
  mkWorld [mkCmd "lit" "a literal" None None None] [] [].

Lemma literal_node_default_usage_witness :
  ∃ w', ExecArgs quoted "prog" demo_actions 0 (mk_slice ["x"]) demo_literal
        = Some (w', Exit 1%Z)
        ∧ stderr w'
          = stderr demo_literal
            ++ [Text (if decide ("prog" = "") then "Usage:" +:+ NL
                      else "Usage of " +:+ "prog" +:+ ":" +:+ NL);
                Defaults ∅].
Proof.
  apply (literal_node_default_usage quoted "prog" demo_actions 0 (mk_slice ["x"])
           demo_literal (mkCmd "lit" "a literal" None None None)).
  - reflexivity.
  - reflexivity.
  - reflexivity.
  - reflexivity.
  - intros m tok Hm. discriminate Hm.
Defined.

(** probe, called with the nil slice *)
Lemma action_result_decides_outcome_witness :
  ∃ w1,
    extends demo w1 ∧ stderr w1 = stderr demo
    ∧ demo_ExecArgs 6 nil_slice demo
      = Some (match demo_actions 1 w1 6 nil_slice with
              | None => (w1, Return tt)
              | Some e => (written w1 [Text ("error: " +:+ Error e +:+ NL)], Exit 1%Z)
              end).
Proof.
  apply (action_result_decides_outcome quoted "prog" demo_actions 6 nil_slice demo
           (demo_node 6) 1).
  - compute_eq.
  - apply check_flags_of_ok. compute_eq.
  - compute_eq.
  - exact I.
  - intros m tok _ H. discriminate H.
Defined.

(** tool help, on a node just made *)
Lemma New_then_help_witness :
  ∃ w'', ExecArgs quoted "prog" demo_actions 8 (mk_slice ["help"])
           (fst (New "tool" None demo))
         = Some (w'', Return tt)
         ∧ stderr w'' = stderr demo ++ newUsageText "tool".
Proof.
  apply (New_then_help quoted "prog" demo_actions "tool" None demo
           (fst (New "tool" None demo)) 8).
  compute_eq.
Defined.

(** tool, without arguments *)
Lemma Exec_without_arguments_witness :
  ∃ w'', Exec quoted "prog" [] demo_actions 8 (fst (New "tool" None demo))
         = Some (w'', Exit 1%Z)
         ∧ stderr w'' = stderr demo ++ newUsageText "tool".
Proof.
  apply (Exec_without_arguments quoted "prog" [] demo_actions "tool" demo
           (fst (New "tool" None demo)) 8 eq_refl).
  compute_eq.
Defined.

(** root help a, and root a help *)
Lemma help_sub_same_as_sub_help_witness :
  ∃ w1 w2,
    demo_ExecArgs 0 (mk_slice ["help"; "a"]) demo = Some (w1, Return tt)
    ∧ demo_ExecArgs 0 (mk_slice ["a"; "help"]) demo = Some (w2, Return tt)
    ∧ stderr w1
      = stderr demo ++ usageText (cmds demo) (demo_node 2) (formal (demo_flagset 1))
    ∧ stderr w2 = stderr w1.
Proof.
  apply (help_sub_same_as_sub_help quoted "prog" demo_actions 0 "a" demo (demo_node 0)
           (demo_children 0) 1 2 (demo_node 2) 1 (demo_flagset 1) (demo_children 2) 3).
  - compute_eq.
  - apply check_flags_of_ok. compute_eq.
  - compute_eq.
  - compute_eq.
  - exact demo_helpNode_root.
  - compute_eq.
  - discriminate.
  - reflexivity.
  - exact demo_usageNode_a.
  - compute_eq.
  - compute_eq.
  - exact demo_helpNode_a.
Defined.

(** A node that is its own child. *)
Definition demo_cycle : World :=
  mkWorld [mkCmd "loop" "" None (Some {["loop" := 0]}) None] [] [].

(** loop loop loop *)
Lemma dispatch_terminates_witness :
  ∃ w' r,
    ExecArgs quoted "prog" demo_actions 0 (mk_slice ["loop"; "loop"; "loop"]) demo_cycle
    = Some (w', r)
    ∧ ∀ n, len (mk_slice ["loop"; "loop"; "loop"]) < n →
           ExecArgs_fuel quoted "prog" demo_actions n 0 (mk_slice ["loop"; "loop"; "loop"])
                         demo_cycle
           = Some (w', r).
Proof.
  exact (dispatch_terminates quoted "prog" demo_actions 0
           (mk_slice ["loop"; "loop"; "loop"]) demo_cycle).
Defined.

Example dispatch_loop_loop_loop :
  ∃ w', ExecArgs quoted "prog" demo_actions 0 (mk_slice ["loop"; "loop"; "loop"]) demo_cycle
        = Some (w', Exit 1%Z)
        ∧ stderr w' = [Text ("Usage of prog:" +:+ NL); Defaults ∅]
        ∧ fs_args <$> flagsets w' = [nil_slice].
Proof. eexists. split_and!; compute_eq. Qed.

(** root a b --flag=v pos *)
Lemma return_means_action_succeeded_witness :
  ∃ w' d a w1 cmd run,
    demo_ExecArgs 0 (mk_slice ["a"; "b"; "--flag=v"; "pos"]) demo = Some (w', Return tt)
    ∧ extends demo w1 ∧ cmds w1 !! d = Some cmd ∧ Run cmd = Some run
    ∧ callRun quoted demo_actions run d a w1 = (w', Return None).
Proof.
  pose (w' := fst (default (demo, Return tt)
                     (demo_ExecArgs 0 (mk_slice ["a"; "b"; "--flag=v"; "pos"]) demo))).
  assert (demo_ExecArgs 0 (mk_slice ["a"; "b"; "--flag=v"; "pos"]) demo
          = Some (w', Return tt)) as H by compute_eq.
  destruct (return_means_action_succeeded quoted "prog" demo_actions 0 _ demo w' H)
    as (d & a & w1 & cmd & run & H1).
  exists w', d, a, w1, cmd, run. exact (conj H H1).
Defined.

(** b registered under probe *)
Lemma AddCmd_registers_witness :
  ∃ w' x' m',
    AddCmd 6 4 demo = (w', Return tt)
    ∧ cmds w' !! 6 = Some x' ∧ Commands x' = Some m'
    ∧ m' !! Name (demo_node 4) = Some 4
    ∧ (∀ n, n ≠ Name (demo_node 4) → m' !! n = default ∅ (Commands (demo_node 6)) !! n)
    ∧ Name x' = Name (demo_node 6) ∧ Description x' = Description (demo_node 6)
    ∧ Flags x' = Flags (demo_node 6) ∧ Run x' = Run (demo_node 6)
    ∧ (∀ a, a ≠ 6 → cmds w' !! a = cmds demo !! a)
    ∧ length (cmds w') = length (cmds demo)
    ∧ flagsets w' = flagsets demo ∧ stderr w' = stderr demo.
Proof.
  apply (AddCmd_registers 6 4 demo (demo_node 6) (demo_node 4)).
  - compute_eq.
  - compute_eq.
  - intros H. vm_compute in H. discriminate H.
Defined.

(** a and b registered under probe, in either order *)
Lemma AddCmd_commutes_witness :
  (AddCmd 6 2;; AddCmd 6 4) demo = (AddCmd 6 4;; AddCmd 6 2) demo.
Proof.
  apply (AddCmd_commutes 6 2 4 demo (demo_node 6) (demo_node 2) (demo_node 4)).
  - compute_eq.
  - compute_eq.
  - compute_eq.
  - intros H. vm_compute in H. discriminate H.
  - intros H. vm_compute in H. discriminate H.
  - intros H. vm_compute in H. discriminate H.
Defined.

(** b registered under probe, then probe b x *)
Lemma AddCmd_then_dispatch_witness :
  ∃ w' w1,
    AddCmd 6 4 demo = (w', Return tt)
    ∧ ExecArgs quoted "prog" demo_actions 6 (mk_slice (Name (demo_node 4) :: ["x"])) w'
      = ExecArgs quoted "prog" demo_actions 4 (mk_slice ["x"]) w1
    ∧ extends w' w1 ∧ stderr w1 = stderr demo.
Proof.
  apply (AddCmd_then_dispatch quoted "prog" demo_actions 6 4 ["x"] demo
           (demo_node 6) (demo_node 4)).
  - compute_eq.
  - apply check_flags_of_ok. compute_eq.
  - compute_eq.
  - intros H. vm_compute in H. discriminate H.
  - compute_eq.
Defined.

(** root --bogus *)
Lemma exit_status_is_0_1_or_2_witness :
  ∃ w', demo_ExecArgs 0 (mk_slice ["--bogus"]) demo = Some (w', Exit 2%Z)
        ∧ (2 = 0 ∨ 2 = 1 ∨ 2 = 2)%Z.
Proof.
  eexists. split; [compute_eq|].
  eapply (exit_status_is_0_1_or_2 quoted "prog" demo_actions 0 (mk_slice ["--bogus"]) demo).
  compute_eq.
Defined.

(** root -h *)
Example dispatch_help_flag :
  snd <$> demo_ExecArgs 0 (mk_slice ["-h"]) demo = Some (Exit 0%Z).
Proof. compute_eq. Qed.

(** b --flag=v help *)
Lemma flags_before_subcommand_witness :
  let fs1 := parsedSet (demo_flagset 2) (<["flag" := "v"]> (actual (demo_flagset 2)))
                       (mk_slice ["help"]) in
  demo_ExecArgs 4 (mk_slice [flagToken "flag" "v"; "help"]) demo
  = demo_ExecArgs 5 nil_slice (parsedWorld demo 2 fs1)
  ∧ actual fs1 !! "flag" = Some "v".
Proof.
  apply (flags_before_subcommand quoted "prog" demo_actions 4 "flag" "v" "help" [] demo
           (demo_node 4) 2 (demo_flagset 2) stringFlag (demo_children 4) 5).
  - compute_eq.
  - compute_eq.
  - compute_eq.
  - compute_eq.
  - reflexivity.
  - vm_compute. split_and!; done.
  - compute_eq.
  - compute_eq.
  - discriminate.
  - reflexivity.
Defined.

(** A node whose flag set is the zero [flag.FlagSet]. *)
Definition demo_zero : World :=
  mkWorld [mkCmd "z" "" (Some 0) None None]
          [mkFlagSet None "" false ∅ ∅ nil_slice ContinueOnError]
          [].

Lemma nil_Usage_panics_witness :
  (∃ w1, ExecArgs quoted "prog" demo_actions 0 (mk_slice []) demo_zero
         = Some (w1, Panic nil_deref)
         ∧ stderr w1 = stderr demo_zero)
  ∧ helpRun quoted 0 0 nil_slice demo_zero = (demo_zero, Panic nil_deref).
Proof.
  pose proof (nil_Usage_panics quoted "prog" demo_actions 0 demo_zero
                (mkCmd "z" "" (Some 0) None None) 0
                (mkFlagSet None "" false ∅ ∅ nil_slice ContinueOnError)
                eq_refl eq_refl eq_refl eq_refl) as [H1 H2].
  split.
  - apply H1; [reflexivity|exact I|]. intros m tok Hm. discriminate Hm.
  - apply H2. reflexivity.
Defined.

(** tool help help, on a node just made *)
Lemma help_help_default_usage_witness :
  ∃ w'', ExecArgs quoted "prog" demo_actions 8 (mk_slice ["help"; "help"])
           (fst (New "tool" None demo))
         = Some (w'', Return tt)
         ∧ stderr w'' = stderr demo ++ defaultUsageText "prog" ∅.
Proof.
  apply (help_help_default_usage quoted "prog" demo_actions "tool" None demo
           (fst (New "tool" None demo)) 8).
  compute_eq.
Defined.

(** root help help *)
Example dispatch_help_help :
  ∃ w', demo_ExecArgs 0 (mk_slice ["help"; "help"]) demo = Some (w', Return tt)
        ∧ stderr w' = [Text ("Usage of prog:" +:+ NL); Defaults ∅].
Proof. eexists. split; compute_eq. Qed.
